(** * grpc-parse: schema-less decoding of a gRPC-framed protobuf message

    A shallow embedding of [main.go] and the properties of its decode and
    render pipeline.

    Conventions.
    - A Go [[]byte] is a [list byte]; [len] is a [Z]; the slice expression
      [data[lo:hi]] is [slice data lo hi], and it is only evaluated where the
      Go bounds check passes (a failed bounds check is the outcome [Panic]).
    - [uint64] values are [Z] in [0, 2^64); Go's [int] is the 64-bit signed
      integer, with its wrap-around written out ([to_int]).
    - A Go function returning [(value, n, error)] returns an [outcome]:
      [Ok (value, n)] when the error is nil, [Err e] otherwise (the value
      is then nil, and [n] is 0, or 5 behind the frame header).
    - The [for] loop of [ParseProto] and its recursive call are driven by a
      fuel counter; [OutOfFuel] is the outcome of a run that did not finish
      within the fuel it was given. *)

From Stdlib Require Import ZArith List Lia Bool String Ascii.
From Stdlib Require Import Strings.Byte Numbers.DecimalString Sorting.Permutation.
Import ListNotations.

Local Open Scope Z_scope.

(** ** Bytes, slices and machine integers *)

Definition b2z (b : byte) : Z := Z.of_N (Byte.to_N b).

Definition len {A : Type} (l : list A) : Z := Z.of_nat (List.length l).

(** [data[lo:]] for [0 <= lo <= len data]. *)
Definition slice_from {A : Type} (data : list A) (lo : Z) : list A :=
  skipn (Z.to_nat lo) data.

(** [data[lo:hi]] for [0 <= lo <= hi <= len data]. *)
Definition slice {A : Type} (data : list A) (lo hi : Z) : list A :=
  firstn (Z.to_nat (hi - lo)) (skipn (Z.to_nat lo) data).

Definition two64 : Z := 2 ^ 64.
Definition two63 : Z := 2 ^ 63.

(** Truncation of a mathematical integer to [uint64]. *)
Definition to_uint64 (x : Z) : Z := x mod two64.

(** Conversion to Go's 64-bit [int]: the two's complement reading of the low
    64 bits.  [int(x)] for a [uint64] [x] and the wrapped sum of two [int]s
    both go through it. *)
Definition to_int (x : Z) : Z :=
  let r := x mod two64 in if r <? two63 then r else r - two64.

(** ** Wire types *)

Definition Varint : Z := 0.
Definition B64 : Z := 1.
Definition LengthDelim : Z := 2.
Definition B32 : Z := 5.

(** ** The errors the decoder returns

    [MissingFrameSize n]: "Missing gRPC frame size, only n bytes available";
    [IncompleteFrame w f]: "Incomplete gRPC frame, wanted w bytes but only
    found f"; [UnexpectedEOF]: [io.ErrUnexpectedEOF], returned by the fixed
    width readers of [proto.Buffer]; [NotEnoughBytes w f]: "Not enough bytes
    for length delimited field, wanted w but only found f";
    [InvalidFieldType t]: "Invalid field type: t". *)
Inductive error : Type :=
| MissingFrameSize (available : Z)
| IncompleteFrame (wanted found : Z)
| UnexpectedEOF
| NotEnoughBytes (wanted found : Z)
| InvalidFieldType (typ : Z).

Inductive outcome (A : Type) : Type :=
| Ok (a : A)
| Err (e : error)
| Panic
| OutOfFuel.

Arguments Ok {A} a.
Arguments Err {A} e.
Arguments Panic {A}.
Arguments OutOfFuel {A}.

(** ** Library functions used by [main.go]

    [proto.DecodeVarint] of github.com/golang/protobuf: "reads a
    varint-encoded integer from the slice; it returns the integer and the
    number of bytes consumed, or zero if there is not enough".  Its loop is
    [for shift := uint(0); shift < 64; shift += 7], reading [buf[n]], or-ing
    [(b & 0x7F) << shift] into the [uint64] accumulator and returning at the
    first byte whose bit [0x80] is clear; [(0, 0)] when the buffer ends first
    or when ten bytes all carry the continuation bit. *)
Fixpoint DecodeVarint_loop (buf : list byte) (shift x n : Z) : Z * Z :=
  if 64 <=? shift then (0, 0) else
  match buf with
  | [] => (0, 0)
  | b :: rest =>
      let x' := Z.lor x (to_uint64 (Z.shiftl (Z.land (b2z b) 127) shift)) in
      if Z.land (b2z b) 128 =? 0 then (x', n + 1)
      else DecodeVarint_loop rest (shift + 7) x' (n + 1)
  end.

Definition DecodeVarint (buf : list byte) : Z * Z :=
  DecodeVarint_loop buf 0 0 0.

(** [proto.NewBuffer(buf).DecodeFixed32()]: the first four bytes, little
    endian, as a [uint64]; [io.ErrUnexpectedEOF] when fewer than four bytes
    are there. *)
Definition DecodeFixed32 (buf : list byte) : outcome Z :=
  match buf with
  | b0 :: b1 :: b2 :: b3 :: _ =>
      Ok (Z.lor (Z.lor (Z.lor (b2z b0) (Z.shiftl (b2z b1) 8))
                       (Z.shiftl (b2z b2) 16)) (Z.shiftl (b2z b3) 24))
  | _ => Err UnexpectedEOF
  end.

(** [proto.NewBuffer(buf).DecodeFixed64()]: the first eight bytes, little
    endian; [io.ErrUnexpectedEOF] when fewer than eight bytes are there. *)
Definition DecodeFixed64 (buf : list byte) : outcome Z :=
  match buf with
  | b0 :: b1 :: b2 :: b3 :: b4 :: b5 :: b6 :: b7 :: _ =>
      Ok (Z.lor (Z.lor (Z.lor (Z.lor (Z.lor (Z.lor (Z.lor
            (b2z b0) (Z.shiftl (b2z b1) 8)) (Z.shiftl (b2z b2) 16))
            (Z.shiftl (b2z b3) 24)) (Z.shiftl (b2z b4) 32))
            (Z.shiftl (b2z b5) 40)) (Z.shiftl (b2z b6) 48))
            (Z.shiftl (b2z b7) 56))
  | _ => Err UnexpectedEOF
  end.

(** [utf8.Valid] of the Go standard library: the bytes are a sequence of
    well-formed UTF-8 encodings (no overlong forms, no surrogates, nothing
    above U+10FFFF).  [in_range lo hi c] is the test [lo <= c <= hi] on a
    following byte; the default continuation range is [0x80..0xBF]. *)
Definition in_range (lo hi : Z) (c : byte) : bool :=
  (lo <=? b2z c) && (b2z c <=? hi).

Fixpoint utf8_Valid (p : list byte) : bool :=
  match p with
  | [] => true
  | p0 :: r0 =>
      let c0 := b2z p0 in
      if c0 <? 128 then utf8_Valid r0
      else if (c0 <? 194) || (244 <? c0) then false
      else if c0 <? 224 then
        match r0 with
        | c1 :: r1 => in_range 128 191 c1 && utf8_Valid r1
        | _ => false
        end
      else if c0 <? 240 then
        match r0 with
        | c1 :: c2 :: r2 =>
            in_range (if c0 =? 224 then 160 else 128)
                     (if c0 =? 237 then 159 else 191) c1
            && in_range 128 191 c2 && utf8_Valid r2
        | _ => false
        end
      else
        match r0 with
        | c1 :: c2 :: c3 :: r3 =>
            in_range (if c0 =? 240 then 144 else 128)
                     (if c0 =? 244 then 143 else 191) c1
            && in_range 128 191 c2 && in_range 128 191 c3
            && utf8_Valid r3
        | _ => false
        end
  end.

(** ** The data model of [main.go] *)

(** [Field] has four pointer members; [None] is the nil pointer.  [Message]
    is [map[uint64][]Field]: a finite map kept as an association list with
    one entry per key.  The order of the entries is not observable through
    the map operations; only [range] (in [Render]) depends on an order, and
    Go leaves that order unspecified. *)
#[local] Unset Elimination Schemes.
Inductive Field : Type :=
  mkField (numeric : option Z)
          (string_ : option (list byte))
          (message : option (list (Z * list Field)))
          (bytes : option (list byte)).
#[local] Set Elimination Schemes.

Definition Message : Type := list (Z * list Field).

Definition numeric (f : Field) : option Z :=
  match f with mkField n _ _ _ => n end.
Definition string_ (f : Field) : option (list byte) :=
  match f with mkField _ s _ _ => s end.
Definition message (f : Field) : option Message :=
  match f with mkField _ _ m _ => m end.
Definition bytes (f : Field) : option (list byte) :=
  match f with mkField _ _ _ b => b end.

Record Tag : Type := mkTag { fieldID : Z; typ : Z }.

(** [m[id]] with its presence flag. *)
Fixpoint lookup (m : Message) (id : Z) : option (list Field) :=
  match m with
  | [] => None
  | (k, fields) :: rest => if k =? id then Some fields else lookup rest id
  end.

(** [m[id] = fields]. *)
Fixpoint store (m : Message) (id : Z) (fields : list Field) : Message :=
  match m with
  | [] => [(id, fields)]
  | (k, old) :: rest =>
      if k =? id then (k, fields) :: rest else (k, old) :: store rest id fields
  end.

Definition addField (m : Message) (id : Z) (field : Field) : Message :=
  match lookup m id with
  | Some fields => store m id (fields ++ [field])
  | None => store m id [field]
  end.

(** ** The decoder *)

Definition ParseTag (data : list byte) : outcome (Tag * Z) :=
  let '(x, n) := DecodeVarint data in
  let typ := Z.land x 7 in
  let id := Z.shiftr x 3 in
  if (typ =? Varint) || (typ =? B64) || (typ =? LengthDelim) || (typ =? B32)
  then Ok (mkTag id typ, n)
  else Err (InvalidFieldType typ).

(** One iteration of [for pos < len(data)]: the body of the loop, from the
    cursor [pos] and the map [msg] before it to the map and the cursor after
    it.  [sub] is the recursive call [ParseProto(content)]. *)
Definition loop_body (sub : list byte -> outcome (Message * Z))
                     (data : list byte) (pos : Z) (msg : Message)
  : outcome (Message * Z) :=
  match ParseTag (slice_from data pos) with
  | Ok (tag, n) =>
      let pos := pos + n in
      if typ tag =? Varint then
        let '(x, n) := DecodeVarint (slice_from data pos) in
        Ok (addField msg (fieldID tag) (mkField (Some x) None None None),
            pos + n)
      else if typ tag =? B32 then
        match DecodeFixed32 (slice_from data pos) with
        | Ok x =>
            Ok (addField msg (fieldID tag) (mkField (Some x) None None None),
                pos + 4)
        | Err e => Err e
        | Panic => Panic
        | OutOfFuel => OutOfFuel
        end
      else if typ tag =? B64 then
        match DecodeFixed64 (slice_from data pos) with
        | Ok x =>
            Ok (addField msg (fieldID tag) (mkField (Some x) None None None),
                pos + 8)
        | Err e => Err e
        | Panic => Panic
        | OutOfFuel => OutOfFuel
        end
      else if typ tag =? LengthDelim then
        let '(x, n) := DecodeVarint (slice_from data pos) in
        let pos := pos + n in
        let hi := to_int (pos + to_int x) in
        if hi >? len data then Err (NotEnoughBytes x (len data - pos))
        else if hi <? pos then Panic
        else
          let content := slice data pos hi in
          let pos := hi in
          match sub content with
          | Ok (subMsg, _) =>
              Ok (addField msg (fieldID tag)
                           (mkField None None (Some subMsg) None), pos)
          | Err _ =>
              if utf8_Valid content then
                Ok (addField msg (fieldID tag)
                             (mkField None (Some content) None None), pos)
              else
                Ok (addField msg (fieldID tag)
                             (mkField None None None (Some content)), pos)
          | Panic => Panic
          | OutOfFuel => OutOfFuel
          end
      else Ok (msg, pos)
  | Err e => Err e
  | Panic => Panic
  | OutOfFuel => OutOfFuel
  end.

(** The loop.  Each iteration takes one unit of fuel, and the recursive call
    on the content of a length-delimited field runs on what is left. *)
Fixpoint ParseProto_loop (fuel : nat) (data : list byte) (pos : Z)
                         (msg : Message) : outcome (Message * Z) :=
  match fuel with
  | O => OutOfFuel
  | S fuel' =>
      if pos <? len data then
        match loop_body (fun content => ParseProto_loop fuel' content 0 [])
                        data pos msg with
        | Ok (msg', pos') => ParseProto_loop fuel' data pos' msg'
        | Err e => Err e
        | Panic => Panic
        | OutOfFuel => OutOfFuel
        end
      else Ok (msg, pos)
  end.

Definition ParseProto (fuel : nat) (data : list byte) : outcome (Message * Z) :=
  ParseProto_loop fuel data 0 [].

(** [size] is accumulated over [i = 0 .. 4]: five bytes, big endian. *)
Definition frame_size (data : list byte) : Z :=
  fold_left (fun size b => Z.shiftl size 8 + b2z b) (firstn 5 data) 0.

Definition ParseGrpc (fuel : nat) (data : list byte) : outcome (Message * Z) :=
  if len data <? 5 then Err (MissingFrameSize (len data))
  else
    let size := frame_size data in
    let data := slice_from data 5 in
    if len data <? size then Err (IncompleteFrame size (len data))
    else
      match ParseProto fuel (slice data 0 size) with
      | Ok (msg, n) => Ok (msg, n + 5)
      | Err e => Err e
      | Panic => Panic
      | OutOfFuel => OutOfFuel
      end.

(** ** The renderer *)

Local Open Scope string_scope.

(** [fmt.Sprintf("%d", x)] for a [uint64]. *)
Definition fmt_d (x : Z) : string :=
  NilZero.string_of_uint (N.to_uint (Z.to_N x)).

(** [fmt.Sprintf("%s", s)]: the bytes of the Go string, unchanged. *)
Fixpoint fmt_s (s : list byte) : string :=
  match s with
  | [] => EmptyString
  | b :: rest => String (ascii_of_byte b) (fmt_s rest)
  end.

Definition hex_digit (d : Z) : ascii :=
  ascii_of_N (Z.to_N (if (d <? 10)%Z then (48 + d)%Z else (87 + d)%Z)).

(** [%x] applied to a byte slice: two lowercase hexadecimal digits a byte. *)
Fixpoint fmt_x (b : list byte) : string :=
  match b with
  | [] => EmptyString
  | c :: rest =>
      String (hex_digit (Z.shiftr (b2z c) 4))
             (String (hex_digit (Z.land (b2z c) 15)) (fmt_x rest))
  end.

(** [fmt.Sprintf("%x", p)] for [p] of type [*[]byte].  The argument is a
    pointer to a slice, not a slice: at the top level [fmt] prints such a
    pointer as [&] followed by the pointed-to value under the same verb. *)
Definition fmt_x_ptr (b : list byte) : string := "&" ++ fmt_x b.

(** The double quote character, and a string between two of them, as the
    formats of a key ([%d] in quotes) and of a text value ([%s] in quotes)
    print it. *)
Definition dquote : string := String (ascii_of_byte x22) EmptyString.

Definition quoted (s : string) : string := dquote ++ s ++ dquote.

(** [strings.Join(elems, sep)]. *)
Fixpoint Join (elems : list string) (sep : string) : string :=
  match elems with
  | [] => EmptyString
  | [e] => e
  | e :: rest => e ++ sep ++ Join rest sep
  end.

(** The string appended to [out] for one key of the map, from the rendered
    fields of that key. *)
Definition RenderEntry (entry : Z * list string) : string :=
  let '(id, rendered) := entry in
  match rendered with
  | [r] => quoted (fmt_d id) ++ ":" ++ r
  | _ => quoted (fmt_d id) ++ ":[" ++ Join rendered "," ++ "]"
  end.

Section Render.

(** The order in which [for id, fields := range *m] visits the entries of
    the map.  Go does not specify it; the renderer is defined for an
    arbitrary choice [range], and whatever is proved about it holds for
    every choice that visits each entry once ([range_perm]). *)
Variable range : list (Z * list string) -> list (Z * list string).

Definition RenderEntries (entries : list (Z * list string)) : string :=
  "{" ++ Join (map RenderEntry (range entries)) "," ++ "}".

Fixpoint RenderField (f : Field) : string :=
  match f with
  | mkField (Some x) _ _ _ => fmt_d x
  | mkField None (Some s) _ _ => quoted (fmt_s s)
  | mkField None None (Some m) _ =>
      RenderEntries
        ((fix entries (m : list (Z * list Field)) : list (Z * list string) :=
            match m with
            | [] => []
            | (id, fields) :: rest =>
                (id, (fix each (fs : list Field) : list string :=
                        match fs with
                        | [] => []
                        | f :: fs' => RenderField f :: each fs'
                        end) fields) :: entries rest
            end) m)
  | mkField None None None (Some b) => fmt_x_ptr b
  | mkField None None None None => EmptyString
  end.

Definition Render (m : Message) : string :=
  RenderEntries
    (map (fun e : Z * list Field => (fst e, map RenderField (snd e))) m).

End Render.

(** * The vocabulary of the properties *)

Local Open Scope Z_scope.

(** ** Stored fields *)

(** The fields stored under a field number, in the order of the slice; a
    missing key has none. *)
Definition occurrences (m : Message) (id : Z) : list Field :=
  match lookup m id with
  | Some fields => fields
  | None => []
  end.

(** No field number is stored with an empty sequence. *)
Definition no_empty_sequence (m : Message) : Prop :=
  forall id fields, In (id, fields) m -> fields <> [].

(** ** Populated members *)

Definition is_set {A : Type} (p : option A) : nat :=
  match p with
  | Some _ => 1
  | None => 0
  end.

(** The number of members of [f] that are not nil. *)
Definition populated (f : Field) : nat :=
  (is_set (numeric f) + is_set (string_ f)
   + is_set (message f) + is_set (bytes f))%nat.

(** [field_ok f]: [f] has one member set, and so has every field of the
    message it holds, at every depth.  [message_ok] asks it of every field
    of a message. *)
Fixpoint field_ok (f : Field) : bool :=
  Nat.eqb (populated f) 1 &&
  match f with
  | mkField _ _ (Some m) _ =>
      (fix entries (m : list (Z * list Field)) : bool :=
         match m with
         | [] => true
         | (_, fields) :: rest =>
             (fix each (fs : list Field) : bool :=
                match fs with
                | [] => true
                | f :: fs' => field_ok f && each fs'
                end) fields && entries rest
         end) m
  | mkField _ _ None _ => true
  end.

Definition message_ok (m : Message) : bool :=
  forallb (fun e : Z * list Field => forallb field_ok (snd e)) m.

(** A field of the message, at any depth: an element of the sequence of one
    of its field numbers, or such a field of a nested message. *)
Inductive within : Message -> Field -> Prop :=
| within_here (m : Message) (id : Z) (fields : list Field) (f : Field) :
    In (id, fields) m -> In f fields -> within m f
| within_nested (m : Message) (id : Z) (fields : list Field) (g : Field)
                (sub : Message) (f : Field) :
    In (id, fields) m -> In g fields -> message g = Some sub ->
    within sub f -> within m f.

(** One member is set and the other three are nil. *)
Definition exactly_one_variant (f : Field) : Prop :=
  (numeric f <> None /\ string_ f = None /\ message f = None /\ bytes f = None)
  \/ (numeric f = None /\ string_ f <> None /\ message f = None
      /\ bytes f = None)
  \/ (numeric f = None /\ string_ f = None /\ message f <> None
      /\ bytes f = None)
  \/ (numeric f = None /\ string_ f = None /\ message f = None
      /\ bytes f <> None).

(** ** Iteration orders and rendered entries *)

(** What is asked of an iteration order: every entry of the map is visited,
    and visited once. *)
Definition iteration_order
           (range : list (Z * list string) -> list (Z * list string)) : Prop :=
  forall entries, Permutation (range entries) entries.

Local Open Scope string_scope.

(** The text written for one key of the map. *)
Definition rendered_entry
           (range : list (Z * list string) -> list (Z * list string))
           (e : Z * list Field) : string :=
  match snd e with
  | [f] => quoted (fmt_d (fst e)) ++ ":" ++ RenderField range f
  | fields =>
      quoted (fmt_d (fst e)) ++ ":["
      ++ Join (map (RenderField range) fields) "," ++ "]"
  end.

Local Open Scope Z_scope.

(** ** Buffers *)

(** No byte of the buffer has the continuation bit [0x80]. *)
Definition no_continuation (data : list byte) : Prop :=
  Forall (fun b => b2z b < 128) data.

(** Field 1, length-delimited, with the two bytes of the text hi, and what
    the decoder makes of it. *)
Definition hi_message : list byte := [x0a; x02; x68; x69].

Definition hi_decoded : Message :=
  [(1, [mkField None None
          (Some [(13, [mkField (Some 105) None None None])]) None])].

(** Field 7 twice, with the varint values 1 and 2, and what the decoder
    makes of it. *)
Definition field7_twice : list byte := [x38; x01; x38; x02].

Definition field7_decoded : Message :=
  [(7, [mkField (Some 1) None None None; mkField (Some 2) None None None])].

(** ** The program *)

Local Open Scope string_scope.

Definition newline : string := String (ascii_of_byte x0a) EmptyString.

(** [main]: the bytes of standard input go to [ParseGrpc], whose count and
    error are dropped; [fmt.Println(Render(msg))] writes the rendering and
    a newline.  After an error [msg] is the nil pointer, and [Render]
    dereferences it in [range *m]: the program stops in a runtime panic.
    The result is what is written to standard output. *)
Definition main (range : list (Z * list string) -> list (Z * list string))
                (fuel : nat) (stdin : list byte) : outcome string :=
  match ParseGrpc fuel stdin with
  | Ok (msg, _) => Ok (Render range msg ++ newline)
  | Err _ => Panic
  | Panic => Panic
  | OutOfFuel => OutOfFuel
  end.

Local Open Scope Z_scope.

(** ** What a decoded field can hold *)

(** [sound_field f]: [f] is one of the four fields the decoder builds.  A
    number is a [uint64].  A text is valid UTF-8 that the decoder rejects as
    a message; bytes are not valid UTF-8 and rejected as a message as well.
    A nested message is the decode of some buffer, read to its end, and has
    field numbers below [2^61] and sound fields. *)
#[local] Unset Elimination Schemes.
Inductive sound_field : Field -> Prop :=
| sound_numeric (x : Z) :
    0 <= x < two64 -> sound_field (mkField (Some x) None None None)
| sound_text (s : list byte) :
    utf8_Valid s = true ->
    (exists fuel e, ParseProto fuel s = Err e) ->
    sound_field (mkField None (Some s) None None)
| sound_bytes (b : list byte) :
    utf8_Valid b = false ->
    (exists fuel e, ParseProto fuel b = Err e) ->
    sound_field (mkField None None None (Some b))
| sound_nested (m : list (Z * list Field)) :
    (exists fuel c, ParseProto fuel c = Ok (m, len c)) ->
    Forall (fun e => 0 <= fst e < 2 ^ 61 /\ Forall sound_field (snd e)) m ->
    sound_field (mkField None None (Some m) None).
#[local] Set Elimination Schemes.

Definition sound_message (m : Message) : Prop :=
  Forall (fun e => 0 <= fst e < 2 ^ 61 /\ Forall sound_field (snd e)) m.

(** ** The states of the loop *)

(** [reached data pos msg]: the loop of [ParseProto] on [data] comes to the
    cursor [pos] with the map [msg].  It starts at cursor 0 with the empty
    map, and goes from one state to the next by an iteration that succeeds
    (with the recursive decoder given the fuel it needs). *)
Inductive reached (data : list byte) : Z -> Message -> Prop :=
| reached_start : reached data 0 []
| reached_step (pos : Z) (msg : Message) (pos' : Z) (msg' : Message) :
    reached data pos msg -> pos < len data ->
    (exists fuel, loop_body (ParseProto fuel) data pos msg = Ok (msg', pos')) ->
    reached data pos' msg'.

(** * Properties *)

Local Open Scope Z_scope.

(** ** Bytes and slices *)

Lemma b2z_range (b : byte) : 0 <= b2z b < 256.
Proof.
  unfold b2z. pose proof (Byte.to_N_bounded b). lia.
Qed.

Lemma len_nonneg {A : Type} (l : list A) : 0 <= len l.
Proof. unfold len. lia. Qed.

Lemma len_cons {A : Type} (a : A) (l : list A) : len (a :: l) = len l + 1.
Proof. unfold len. simpl List.length. lia. Qed.

Lemma len_nil {A : Type} : len (@nil A) = 0.
Proof. reflexivity. Qed.

Lemma len_slice_from {A : Type} (data : list A) (lo : Z) :
  0 <= lo <= len data -> len (slice_from data lo) = len data - lo.
Proof.
  unfold len, slice_from. intros H. rewrite length_skipn. lia.
Qed.

Lemma len_slice {A : Type} (data : list A) (lo hi : Z) :
  0 <= lo <= hi -> hi <= len data -> len (slice data lo hi) = hi - lo.
Proof.
  unfold len, slice. intros H1 H2.
  rewrite length_firstn, length_skipn. lia.
Qed.

Lemma slice_from_0 {A : Type} (data : list A) : slice_from data 0 = data.
Proof. reflexivity. Qed.

(** ** Machine integers *)

Lemma to_int_small (x : Z) : 0 <= x < two63 -> to_int x = x.
Proof.
  intros H. unfold to_int, two64, two63 in *.
  rewrite Z.mod_small by lia.
  destruct (x <? 2 ^ 63) eqn:E; [reflexivity | apply Z.ltb_ge in E; lia].
Qed.

Lemma lor_uint64 (a b : Z) :
  0 <= a < two64 -> 0 <= b < two64 -> 0 <= Z.lor a b < two64.
Proof.
  unfold two64. intros Ha Hb. split.
  - apply Z.lor_nonneg. lia.
  - destruct (Z.eq_dec (Z.lor a b) 0) as [E | E]; [rewrite E; lia |].
    apply Z.log2_lt_pow2.
    + assert (0 <= Z.lor a b) by (apply Z.lor_nonneg; lia). lia.
    + rewrite Z.log2_lor by lia.
      apply Z.max_lub_lt.
      * destruct (Z.eq_dec a 0) as [-> | Na]; [simpl; lia |].
        apply Z.log2_lt_pow2; lia.
      * destruct (Z.eq_dec b 0) as [-> | Nb]; [simpl; lia |].
        apply Z.log2_lt_pow2; lia.
Qed.

Lemma to_uint64_range (x : Z) : 0 <= to_uint64 x < two64.
Proof.
  unfold to_uint64, two64. apply Z.mod_pos_bound. lia.
Qed.

(** ** The varint reader *)

(** The reader either reports failure as [(0, 0)] or consumes at least one
    byte and no more than the buffer holds. *)
Lemma DecodeVarint_loop_consumed (buf : list byte) :
  forall shift x n x' n',
    DecodeVarint_loop buf shift x n = (x', n') ->
    (x' = 0 /\ n' = 0) \/ (n < n' <= n + len buf).
Proof.
  induction buf as [| b rest IH]; intros shift x n x' n' H; simpl in H.
  - destruct (64 <=? shift); inversion H; auto.
  - destruct (64 <=? shift); [inversion H; auto |].
    rewrite len_cons. pose proof (len_nonneg rest).
    destruct (Z.land (b2z b) 128 =? 0).
    + inversion H; subst. right. lia.
    + apply IH in H. destruct H as [H | H]; [auto | right; lia].
Qed.

Lemma DecodeVarint_loop_value (buf : list byte) :
  forall shift x n x' n',
    0 <= x < two64 ->
    DecodeVarint_loop buf shift x n = (x', n') -> 0 <= x' < two64.
Proof.
  induction buf as [| b rest IH]; intros shift x n x' n' Hx H; simpl in H.
  - destruct (64 <=? shift); inversion H; unfold two64; lia.
  - destruct (64 <=? shift); [inversion H; unfold two64; lia |].
    pose proof (lor_uint64 x _ Hx
                  (to_uint64_range (Z.shiftl (Z.land (b2z b) 127) shift))).
    destruct (Z.land (b2z b) 128 =? 0).
    + inversion H; subst. assumption.
    + eapply IH; eauto.
Qed.

Lemma DecodeVarint_consumed (buf : list byte) (x n : Z) :
  DecodeVarint buf = (x, n) -> 0 <= n <= len buf.
Proof.
  intros H. apply DecodeVarint_loop_consumed in H.
  pose proof (len_nonneg buf). lia.
Qed.

Lemma DecodeVarint_value (buf : list byte) (x n : Z) :
  DecodeVarint buf = (x, n) -> 0 <= x < two64.
Proof.
  intros H. eapply DecodeVarint_loop_value; [| exact H]. unfold two64. lia.
Qed.

(** A buffer that starts with a byte below [0x80] holds a one-byte varint. *)
Lemma DecodeVarint_one_byte (b : byte) (rest : list byte) :
  b2z b < 128 -> DecodeVarint (b :: rest) = (b2z b, 1).
Proof.
  intros H. pose proof (b2z_range b) as R.
  unfold DecodeVarint. cbn [DecodeVarint_loop].
  change (64 <=? 0) with false. cbv iota.
  assert (E127 : Z.land (b2z b) 127 = b2z b).
  { change 127 with (Z.ones 7). rewrite Z.land_ones by lia.
    apply Z.mod_small. change (2 ^ 7) with 128. lia. }
  assert (E128 : Z.land (b2z b) 128 = 0).
  { apply Z.bits_inj'. intros i Hi. rewrite Z.land_spec, Z.bits_0.
    destruct (Z.eq_dec i 7) as [-> | Ni].
    - replace (Z.testbit (b2z b) 7) with false; [reflexivity |].
      symmetry. apply Z.bits_above_log2; [lia |].
      destruct (Z.eq_dec (b2z b) 0) as [-> | Nz]; [simpl; lia |].
      apply Z.log2_lt_pow2; [lia |]. change (2 ^ 7) with 128. lia.
    - replace (Z.testbit 128 i) with false;
        [apply andb_false_r |].
      change 128 with (2 ^ 7). symmetry. apply Z.pow2_bits_false. lia. }
  rewrite E127, E128. change (0 =? 0) with true. cbv iota.
  rewrite Z.shiftl_0_r. unfold to_uint64, two64.
  rewrite Z.mod_small by lia. reflexivity.
Qed.

(** ** The tag parser *)

Lemma ParseTag_Ok (data : list byte) (tag : Tag) (n : Z) :
  ParseTag data = Ok (tag, n) ->
  exists x, DecodeVarint data = (x, n)
            /\ tag = mkTag (Z.shiftr x 3) (Z.land x 7)
            /\ (typ tag = Varint \/ typ tag = B64
                \/ typ tag = LengthDelim \/ typ tag = B32).
Proof.
  unfold ParseTag. destruct (DecodeVarint data) as [x m] eqn:E.
  destruct ((Z.land x 7 =? Varint) || (Z.land x 7 =? B64)
            || (Z.land x 7 =? LengthDelim) || (Z.land x 7 =? B32)) eqn:T;
    intros H; inversion H; subst.
  exists x. repeat split. simpl.
  repeat (apply orb_true_iff in T; destruct T as [T | T]);
    apply Z.eqb_eq in T; auto.
Qed.

Lemma ParseTag_consumed (data : list byte) (tag : Tag) (n : Z) :
  ParseTag data = Ok (tag, n) -> 0 <= n <= len data.
Proof.
  intros H. apply ParseTag_Ok in H. destruct H as (x & E & _).
  eapply DecodeVarint_consumed; eauto.
Qed.

Lemma ParseTag_not_stuck (data : list byte) :
  ParseTag data <> Panic /\ ParseTag data <> OutOfFuel.
Proof.
  unfold ParseTag. destruct (DecodeVarint data) as [x m].
  destruct (_ || _); split; discriminate.
Qed.

(** ** Fuel *)

(** A run that finished keeps its outcome when the recursive decoder is
    replaced by one that finishes wherever the first did. *)
Lemma loop_body_mono (sub sub' : list byte -> outcome (Message * Z))
      (data : list byte) (pos : Z) (msg : Message)
      (r : outcome (Message * Z)) :
  (forall c rc, sub c = rc -> rc <> OutOfFuel -> sub' c = rc) ->
  loop_body sub data pos msg = r -> r <> OutOfFuel ->
  loop_body sub' data pos msg = r.
Proof.
  intros Hsub. unfold loop_body.
  destruct (ParseTag (slice_from data pos)) as [[tag n] | e | |]; auto.
  destruct (typ tag =? Varint); auto.
  destruct (typ tag =? B32); auto.
  destruct (typ tag =? B64); auto.
  destruct (typ tag =? LengthDelim); auto.
  destruct (DecodeVarint (slice_from data (pos + n))) as [x n2].
  destruct (_ >? _); auto.
  destruct (_ <? _); auto.
  match goal with |- context [sub ?c] => destruct (sub c) as [[sm k] | e | |] eqn:E end;
    intros H Hr.
  - rewrite (Hsub _ _ E) by discriminate. exact H.
  - rewrite (Hsub _ _ E) by discriminate. exact H.
  - rewrite (Hsub _ _ E) by discriminate. exact H.
  - subst r. contradiction.
Qed.

(** More fuel never changes the outcome of a run that finished. *)
Lemma ParseProto_loop_mono (fuel : nat) :
  forall (fuel' : nat) (data : list byte) (pos : Z) (msg : Message)
         (r : outcome (Message * Z)),
    (fuel <= fuel')%nat ->
    ParseProto_loop fuel data pos msg = r -> r <> OutOfFuel ->
    ParseProto_loop fuel' data pos msg = r.
Proof.
  induction fuel as [| fuel IH]; intros fuel' data pos msg r Hle H Hr.
  - simpl in H. subst r. contradiction.
  - destruct fuel' as [| fuel']; [lia |].
    assert (Hle' : (fuel <= fuel')%nat) by lia.
    simpl in H |- *.
    destruct (pos <? len data); [| exact H].
    destruct (loop_body (fun content => ParseProto_loop fuel content 0 [])
                        data pos msg) as [[msg1 pos1] | e | |] eqn:E.
    + erewrite loop_body_mono; [| | exact E | discriminate].
      * eapply IH; eauto.
      * intros c rc Hc Hrc. eapply IH; eauto.
    + erewrite loop_body_mono; [| | exact E | discriminate].
      * exact H.
      * intros c rc Hc Hrc. eapply IH; eauto.
    + erewrite loop_body_mono; [| | exact E | discriminate].
      * exact H.
      * intros c rc Hc Hrc. eapply IH; eauto.
    + subst r. contradiction.
Qed.

Lemma ParseProto_mono (fuel fuel' : nat) (data : list byte)
      (r : outcome (Message * Z)) :
  (fuel <= fuel')%nat -> ParseProto fuel data = r -> r <> OutOfFuel ->
  ParseProto fuel' data = r.
Proof. unfold ParseProto. apply ParseProto_loop_mono. Qed.

(** Two runs that both finished agree, whatever their fuel. *)
Lemma ParseProto_deterministic (f1 f2 : nat) (data : list byte)
      (r1 r2 : outcome (Message * Z)) :
  ParseProto f1 data = r1 -> r1 <> OutOfFuel ->
  ParseProto f2 data = r2 -> r2 <> OutOfFuel -> r1 = r2.
Proof.
  intros H1 N1 H2 N2.
  destruct (Nat.le_ge_cases f1 f2) as [L | L].
  - rewrite (ParseProto_mono _ _ _ _ L H1 N1) in H2. exact H2.
  - rewrite (ParseProto_mono _ _ _ _ L H2 N2) in H1. symmetry. exact H1.
Qed.

(** ** The cursor *)

Lemma DecodeFixed32_Ok (buf : list byte) (x : Z) :
  DecodeFixed32 buf = Ok x -> 4 <= len buf.
Proof.
  destruct buf as [| b0 [| b1 [| b2 [| b3 rest]]]]; simpl; try discriminate.
  intros _. repeat rewrite len_cons. pose proof (len_nonneg rest). lia.
Qed.

Lemma DecodeFixed64_Ok (buf : list byte) (x : Z) :
  DecodeFixed64 buf = Ok x -> 8 <= len buf.
Proof.
  destruct buf as [| b0 [| b1 [| b2 [| b3 [| b4 [| b5 [| b6 [| b7 rest]]]]]]]];
    simpl; try discriminate.
  intros _. repeat rewrite len_cons. pose proof (len_nonneg rest). lia.
Qed.

Lemma DecodeFixed32_not_stuck (buf : list byte) :
  DecodeFixed32 buf <> Panic /\ DecodeFixed32 buf <> OutOfFuel.
Proof.
  destruct buf as [| b0 [| b1 [| b2 [| b3 rest]]]]; simpl; split; discriminate.
Qed.

Lemma DecodeFixed64_not_stuck (buf : list byte) :
  DecodeFixed64 buf <> Panic /\ DecodeFixed64 buf <> OutOfFuel.
Proof.
  destruct buf as [| b0 [| b1 [| b2 [| b3 [| b4 [| b5 [| b6 [| b7 rest]]]]]]]];
    simpl; split; discriminate.
Qed.

(** An iteration that succeeds leaves the cursor inside the buffer and never
    moves it backwards. *)
Lemma loop_body_cursor (sub : list byte -> outcome (Message * Z))
      (data : list byte) (pos : Z) (msg msg' : Message) (pos' : Z) :
  0 <= pos <= len data ->
  loop_body sub data pos msg = Ok (msg', pos') ->
  pos <= pos' <= len data.
Proof.
  intros Hpos. unfold loop_body.
  destruct (ParseTag (slice_from data pos)) as [[tag n] | e | |] eqn:T;
    try discriminate.
  apply ParseTag_consumed in T. rewrite len_slice_from in T by lia.
  assert (Hn : 0 <= pos + n <= len data) by lia.
  destruct (typ tag =? Varint).
  { destruct (DecodeVarint (slice_from data (pos + n))) as [x n2] eqn:V.
    apply DecodeVarint_consumed in V. rewrite len_slice_from in V by lia.
    intros H; inversion H; subst. lia. }
  destruct (typ tag =? B32).
  { destruct (DecodeFixed32 (slice_from data (pos + n))) as [x | e | |] eqn:F;
      try discriminate.
    apply DecodeFixed32_Ok in F. rewrite len_slice_from in F by lia.
    intros H; inversion H; subst. lia. }
  destruct (typ tag =? B64).
  { destruct (DecodeFixed64 (slice_from data (pos + n))) as [x | e | |] eqn:F;
      try discriminate.
    apply DecodeFixed64_Ok in F. rewrite len_slice_from in F by lia.
    intros H; inversion H; subst. lia. }
  destruct (typ tag =? LengthDelim).
  { destruct (DecodeVarint (slice_from data (pos + n))) as [x n2] eqn:V.
    apply DecodeVarint_consumed in V. rewrite len_slice_from in V by lia.
    destruct (_ >? _) eqn:G; try discriminate.
    destruct (_ <? _) eqn:L; try discriminate.
    apply Z.ltb_ge in L.
    assert (G' : to_int (pos + n + n2 + to_int x) <= len data).
    { destruct (Z.gtb_spec (to_int (pos + n + n2 + to_int x)) (len data));
        [discriminate | lia]. }
    match goal with |- context [sub ?c] => destruct (sub c) as [[sm k] | e | |] end;
      try discriminate.
    - intros H; inversion H; subst. lia.
    - destruct (utf8_Valid _); intros H; inversion H; subst; lia. }
  intros H; inversion H; subst. lia.
Qed.

(** A decode that succeeds stops exactly at the end of the buffer. *)
Lemma ParseProto_loop_end (fuel : nat) :
  forall (data : list byte) (pos : Z) (msg msg' : Message) (pos' : Z),
    0 <= pos <= len data ->
    ParseProto_loop fuel data pos msg = Ok (msg', pos') -> pos' = len data.
Proof.
  induction fuel as [| fuel IH]; intros data pos msg msg' pos' Hpos H;
    simpl in H; [discriminate |].
  destruct (pos <? len data) eqn:L.
  - destruct (loop_body _ data pos msg) as [[msg1 pos1] | e | |] eqn:E;
      try discriminate.
    apply loop_body_cursor in E; [| lia].
    eapply IH; [| exact H]. lia.
  - apply Z.ltb_ge in L. inversion H; subst. lia.
Qed.

Lemma ParseProto_end (fuel : nat) (data : list byte) (m : Message) (n : Z) :
  ParseProto fuel data = Ok (m, n) -> n = len data.
Proof.
  unfold ParseProto. apply ParseProto_loop_end. pose proof (len_nonneg data). lia.
Qed.

(** ** A truncated tag

    When the varint reader reports failure for the tag, [ParseTag] turns its
    [(0, 0)] into the tag of field 0 with wire type [Varint] and a length of
    zero bytes; the value is then read at the same place, fails the same way,
    and the cursor is where it was. *)
Lemma DecodeVarint_none_consumed (buf : list byte) (x : Z) :
  DecodeVarint buf = (x, 0) -> x = 0.
Proof.
  intros H. apply DecodeVarint_loop_consumed in H. lia.
Qed.

Lemma loop_body_truncated_tag (sub : list byte -> outcome (Message * Z))
      (data : list byte) (pos : Z) (msg : Message) :
  snd (DecodeVarint (slice_from data pos)) = 0 ->
  loop_body sub data pos msg
  = Ok (addField msg 0 (mkField (Some 0) None None None), pos).
Proof.
  intros H. unfold loop_body, ParseTag.
  destruct (DecodeVarint (slice_from data pos)) as [x n] eqn:E.
  simpl in H. subst n.
  pose proof (DecodeVarint_none_consumed _ _ E) as X. subst x.
  change (Z.land 0 7) with 0. change (Z.shiftr 0 3) with 0.
  cbn [orb Z.eqb Varint typ fieldID].
  rewrite Z.add_0_r. rewrite E. rewrite Z.add_0_r. reflexivity.
Qed.

Lemma ParseProto_loop_truncated_tag (data : list byte) (pos : Z) :
  pos < len data ->
  snd (DecodeVarint (slice_from data pos)) = 0 ->
  forall (fuel : nat) (msg : Message),
    ParseProto_loop fuel data pos msg = OutOfFuel.
Proof.
  intros Hpos Hv fuel.
  induction fuel as [| fuel IH]; intros msg; simpl; [reflexivity |].
  apply Z.ltb_lt in Hpos. rewrite Hpos.
  rewrite loop_body_truncated_tag by exact Hv.
  apply IH.
Qed.

(** ** The frame header *)

Lemma frame_size_five_bytes (b0 b1 b2 b3 b4 : byte) (rest : list byte) :
  frame_size (b0 :: b1 :: b2 :: b3 :: b4 :: rest)
  = 2 ^ 32 * b2z b0
    + (2 ^ 24 * b2z b1 + 2 ^ 16 * b2z b2 + 2 ^ 8 * b2z b3 + b2z b4).
Proof.
  unfold frame_size. cbn [firstn fold_left].
  repeat rewrite Z.shiftl_mul_pow2 by lia.
  change (2 ^ 8) with 256. change (2 ^ 16) with 65536.
  change (2 ^ 24) with 16777216. change (2 ^ 32) with 4294967296. lia.
Qed.

Lemma ParseGrpc_missing_header (fuel : nat) (data : list byte) :
  len data < 5 -> ParseGrpc fuel data = Err (MissingFrameSize (len data)).
Proof.
  intros H. unfold ParseGrpc. apply Z.ltb_lt in H. rewrite H. reflexivity.
Qed.

Lemma ParseGrpc_incomplete_frame (fuel : nat) (data : list byte) :
  5 <= len data -> len data - 5 < frame_size data ->
  ParseGrpc fuel data = Err (IncompleteFrame (frame_size data) (len data - 5)).
Proof.
  intros H5 H. unfold ParseGrpc.
  apply Z.ltb_ge in H5. rewrite H5.
  rewrite len_slice_from by (apply Z.ltb_ge in H5; lia).
  apply Z.ltb_lt in H. rewrite H. reflexivity.
Qed.

(** C1 (the code departs from the claim).  The claim takes the frame length
    from bytes 1 to 4 and ignores byte 0.  The loop of [ParseGrpc] runs over
    [i = 0 .. 4], so the flag byte is the most significant of five length
    bytes: for a frame whose flag byte is 1 and whose four length bytes are
    zero the computed size is [2^32], and the empty payload is rejected as
    an incomplete frame, where the claim has length 0. *)
Theorem ParseGrpc_flag_byte_in_size :
  (forall (b0 b1 b2 b3 b4 : byte) (rest : list byte),
      frame_size (b0 :: b1 :: b2 :: b3 :: b4 :: rest)
      = 2 ^ 32 * b2z b0
        + (2 ^ 24 * b2z b1 + 2 ^ 16 * b2z b2 + 2 ^ 8 * b2z b3 + b2z b4))
  /\ (forall fuel : nat,
         ParseGrpc fuel [x01; x00; x00; x00; x00]
         = Err (IncompleteFrame 4294967296 0)).
Proof.
  split.
  - apply frame_size_five_bytes.
  - intros fuel. reflexivity.
Qed.

(** ** Varints cut short *)

(** C4 (the code departs from the claim).  The claim has the decode finish
    on every input.  On the one-byte message [0x80] the tag is a varint cut
    short: [proto.DecodeVarint] answers [(0, 0)], which [ParseTag] and the
    [Varint] case take for field 0 with value 0 in zero bytes, so every
    iteration adds a field and leaves the cursor at 0.  No amount of fuel
    lets the run finish, alone or behind a frame header. *)
Theorem ParseProto_truncated_tag_never_finishes :
  forall fuel : nat,
    ParseProto fuel [x80] = OutOfFuel
    /\ ParseGrpc fuel [x00; x00; x00; x00; x01; x80] = OutOfFuel.
Proof.
  intros fuel.
  assert (H : ParseProto fuel [x80] = OutOfFuel).
  { unfold ParseProto. apply ParseProto_loop_truncated_tag; reflexivity. }
  split; [exact H |].
  assert (E : ParseGrpc fuel [x00; x00; x00; x00; x01; x80]
              = match ParseProto fuel [x80] with
                | Ok (msg, n) => Ok (msg, n + 5)
                | Err e => Err e
                | Panic => Panic
                | OutOfFuel => OutOfFuel
                end) by reflexivity.
  rewrite E, H. reflexivity.
Qed.

(** C5 (the code departs from the claim).  The claim has every truncated
    field fail with a truncation error.  Field 1 with wire type [Varint] and
    its value cut off entirely is the message [0x08]: the value reader
    answers [(0, 0)], which is stored as the value 0, and the decode
    succeeds.  The same happens to the length of a length-delimited field
    ([0x0a] decodes to field 1 holding an empty nested message), and a
    varint value cut after a continuation byte ([0x08 0x80]) never finishes
    instead of failing. *)
Theorem ParseProto_truncated_varint_accepted :
  forall fuel : nat,
    ParseProto (S (S fuel)) [x08]
    = Ok ([(1, [mkField (Some 0) None None None])], 1)
    /\ ParseProto (S (S fuel)) [x0a]
       = Ok ([(1, [mkField None None (Some []) None])], 1)
    /\ ParseProto fuel [x08; x80] = OutOfFuel.
Proof.
  intros fuel. split; [| split].
  - apply (ParseProto_mono 2); [lia | reflexivity | discriminate].
  - apply (ParseProto_mono 2); [lia | reflexivity | discriminate].
  - destruct fuel as [| fuel]; [reflexivity |].
    assert (E : ParseProto (S fuel) [x08; x80]
                = ParseProto_loop fuel [x08; x80] 1
                    [(1, [mkField (Some 0) None None None])]) by reflexivity.
    rewrite E. apply ParseProto_loop_truncated_tag; reflexivity.
Qed.

(** ** Wire types *)

(** C7.  Let [x] be the tag that the varint reader returns for [data].  When
    [x & 7] is one of 0, 1, 2, 5, [ParseTag] returns the field number
    [x >> 3] and the wire type [x & 7]; for every other value of [x & 7], 3
    and 4 among them, it fails with the invalid-field-type error carrying
    [x & 7]. *)
Theorem ParseTag_wire_types :
  forall (data : list byte) (x n : Z),
    DecodeVarint data = (x, n) ->
    (In (Z.land x 7) [Varint; B64; LengthDelim; B32] ->
     ParseTag data = Ok (mkTag (Z.shiftr x 3) (Z.land x 7), n))
    /\ (~ In (Z.land x 7) [Varint; B64; LengthDelim; B32] ->
        ParseTag data = Err (InvalidFieldType (Z.land x 7)))
    /\ (Z.land x 7 = 3 \/ Z.land x 7 = 4 ->
        ParseTag data = Err (InvalidFieldType (Z.land x 7))).
Proof.
  intros data x n E.
  assert (Hno : ~ In (Z.land x 7) [Varint; B64; LengthDelim; B32] ->
                ParseTag data = Err (InvalidFieldType (Z.land x 7))).
  { intros Hn. unfold ParseTag. rewrite E.
    destruct ((Z.land x 7 =? Varint) || (Z.land x 7 =? B64)
              || (Z.land x 7 =? LengthDelim) || (Z.land x 7 =? B32)) eqn:T;
      [| reflexivity].
    exfalso. apply Hn. cbn [In].
    repeat (apply orb_true_iff in T; destruct T as [T | T]);
      apply Z.eqb_eq in T; auto. }
  split; [| split].
  - intros Hin. unfold ParseTag. rewrite E.
    cbn [In] in Hin.
    destruct Hin as [H | [H | [H | [H | []]]]]; rewrite <- H; reflexivity.
  - exact Hno.
  - intros H34. apply Hno. unfold Varint, B64, LengthDelim, B32. cbn [In].
    intros [H | [H | [H | [H | []]]]]; destruct H34; lia.
Qed.

Lemma ParseTag_wire_types_witness :
  ParseTag [x38] = Ok (mkTag 7 0, 1)
  /\ ParseTag [x0b] = Err (InvalidFieldType 3)
  /\ ParseTag [x0c] = Err (InvalidFieldType 4).
Proof.
  split; [| split].
  - apply (proj1 (ParseTag_wire_types [x38] 56 1 eq_refl)).
    simpl. auto.
  - apply (proj2 (proj2 (ParseTag_wire_types [x0b] 11 1 eq_refl))).
    left. reflexivity.
  - apply (proj2 (proj2 (ParseTag_wire_types [x0c] 12 1 eq_refl))).
    right. reflexivity.
Defined.

(** ** The renderer *)

Local Open Scope string_scope.

Lemma iteration_order_id : iteration_order (fun entries => entries).
Proof. intros entries. apply Permutation_refl. Qed.

Section RenderFacts.

Variable range : list (Z * list string) -> list (Z * list string).

Lemma RenderField_message (m : Message) (b : option (list byte)) :
  RenderField range (mkField None None (Some m) b) = Render range m.
Proof.
  unfold Render. cbn [RenderField]. f_equal.
  induction m as [| [id fields] rest IH]; [reflexivity |].
  cbn [map fst snd]. rewrite IH. reflexivity.
Qed.

Hypothesis range_perm : iteration_order range.


Lemma range_single (e : Z * list string) : range [e] = [e].
Proof.
  apply Permutation_length_1_inv. apply Permutation_sym. apply range_perm.
Qed.


Lemma RenderEntries_single (e : Z * list string) :
  RenderEntries range [e] = "{" ++ RenderEntry e ++ "}".
Proof. unfold RenderEntries. rewrite range_single. reflexivity. Qed.


Lemma Render_single (id : Z) (fields : list Field) :
  Render range [(id, fields)]
  = "{" ++ RenderEntry (id, map (RenderField range) fields) ++ "}".
Proof. unfold Render. cbn [map fst snd]. apply RenderEntries_single. Qed.

End RenderFacts.

(** ** The payload "hi" *)

Lemma hi_message_decoded (fuel : nat) :
  (3 <= fuel)%nat -> ParseProto fuel hi_message = Ok (hi_decoded, 4).
Proof.
  intros H. apply (ParseProto_mono 3); [exact H | reflexivity | discriminate].
Qed.

Lemma hi_decoded_rendered
      (range : list (Z * list string) -> list (Z * list string)) :
  iteration_order range -> Render range hi_decoded = "{" ++ quoted "1" ++ ":{" ++ quoted "13" ++ ":105}}".
Proof.
  intros Hr. unfold hi_decoded.
  rewrite Render_single by exact Hr. cbn [map].
  rewrite RenderField_message.
  rewrite Render_single by exact Hr. reflexivity.
Qed.

(** C2 (as the claim states it, refuted).  No run of the decoder on
    [0x0a 0x02 0x68 0x69] and no iteration order make the rendering
    [{"1":"hi"}]. *)
Lemma hi_message_not_rendered_as_text :
  ~ (exists range fuel m n,
        iteration_order range
        /\ ParseProto fuel hi_message = Ok (m, n)
        /\ Render range m = "{" ++ quoted "1" ++ ":" ++ quoted "hi" ++ "}").
Proof.
  intros (range & fuel & m & n & Hr & Hp & Hs).
  assert (E : Ok (m, n) = Ok (hi_decoded, 4)).
  { eapply (ParseProto_deterministic fuel 3 hi_message);
      [exact Hp | discriminate | reflexivity | discriminate]. }
  inversion E; subst m n.
  rewrite hi_decoded_rendered in Hs by exact Hr. discriminate Hs.
Qed.

(** C2 (amended).  The two payload bytes [0x68 0x69] are a well-formed
    message: [0x68] is the tag of field 13 with wire type [Varint] and [0x69]
    its value 105.  The recursive decode of the payload therefore succeeds,
    the field is stored as a nested message, and the rendering of the decoded
    [0x0a 0x02 0x68 0x69] is [{"1":{"13":105}}], under every iteration
    order. *)
Theorem hi_message_rendered_as_nested :
  forall (range : list (Z * list string) -> list (Z * list string))
         (fuel : nat),
    iteration_order range -> (3 <= fuel)%nat ->
    ParseProto fuel [x68; x69]
    = Ok ([(13, [mkField (Some 105) None None None])], 2)
    /\ exists m,
        ParseProto fuel hi_message = Ok (m, 4)
        /\ lookup m 1
           = Some [mkField None None
                     (Some [(13, [mkField (Some 105) None None None])]) None]
        /\ Render range m = "{" ++ quoted "1" ++ ":{" ++ quoted "13" ++ ":105}}".
Proof.
  intros range fuel Hr Hf. split.
  - apply (ParseProto_mono 2); [lia | reflexivity | discriminate].
  - exists hi_decoded. split; [| split].
    + apply hi_message_decoded. exact Hf.
    + reflexivity.
    + apply hi_decoded_rendered. exact Hr.
Qed.

Lemma hi_message_rendered_as_nested_witness :
  exists m,
    ParseProto 3 hi_message = Ok (m, 4)
    /\ Render (fun entries => entries) m = "{" ++ quoted "1" ++ ":{" ++ quoted "13" ++ ":105}}".
Proof.
  destruct (hi_message_rendered_as_nested (fun entries => entries) 3
              iteration_order_id (le_n 3)) as (_ & m & Hp & _ & Hs).
  exists m. split; assumption.
Defined.

(** ** Byte fields *)

Lemma fmt_x_ff_fe : fmt_x [xff; xfe] = "fffe".
Proof. reflexivity. Qed.

Lemma bytes_message_never_finishes (fuel : nat) :
  ParseProto fuel [x0a; x02; xff; xfe] = OutOfFuel.
Proof.
  destruct fuel as [| fuel]; [reflexivity |].
  unfold ParseProto. cbn [ParseProto_loop].
  change (0 <? len [x0a; x02; xff; xfe])%Z with true. cbv iota.
  assert (E : forall sub,
             sub [xff; xfe] = OutOfFuel ->
             loop_body sub [x0a; x02; xff; xfe] 0 [] = OutOfFuel).
  { intros sub Hs.
    assert (U : loop_body sub [x0a; x02; xff; xfe] 0 []
                = match sub [xff; xfe] with
                  | Ok (subMsg, _) =>
                      Ok (addField [] 1 (mkField None None (Some subMsg) None),
                          4%Z)
                  | Err _ =>
                      Ok (addField [] 1
                            (mkField None None None (Some [xff; xfe])), 4%Z)
                  | Panic => Panic
                  | OutOfFuel => OutOfFuel
                  end) by reflexivity.
    rewrite U, Hs. reflexivity. }
  rewrite E; [reflexivity |].
  apply ParseProto_loop_truncated_tag; reflexivity.
Qed.

(** C3 (the code departs from the claim).  The claim renders a byte field as
    its hexadecimal digits.  [RenderField] hands [fmt.Sprintf] the pointer
    [f.bytes] where its sibling branches dereference ([*f.numeric],
    [*f.string]), and [%x] prints a pointer to a slice as [&] followed by the
    digits.  The message [0x0a 0x02 0xff 0x03] decodes to field 1 holding
    the bytes [0xff 0x03], which render as [&ff03]; a field holding
    [0xFF 0xFE] renders as [&fffe], not [fffe].  The message that carries
    [0xFF 0xFE] as a length-delimited payload is not rendered at all: its
    payload opens with a tag cut short, on which the recursive decode never
    finishes. *)
Theorem RenderField_bytes_with_ampersand :
  forall range : list (Z * list string) -> list (Z * list string),
    (forall b : list byte,
        RenderField range (mkField None None None (Some b)) = "&" ++ fmt_x b)
    /\ (forall fuel : nat,
           ParseProto (2 + fuel) [x0a; x02; xff; x03]
           = Ok ([(1%Z, [mkField None None None (Some [xff; x03])])], 4%Z))
    /\ RenderField range (mkField None None None (Some [xff; x03])) = "&ff03"
    /\ RenderField range (mkField None None None (Some [xff; xfe])) = "&fffe"
    /\ (forall fuel : nat, ParseProto fuel [x0a; x02; xff; xfe] = OutOfFuel).
Proof.
  intros range. split; [| split; [| split; [| split]]].
  - intros b. reflexivity.
  - intros fuel.
    apply (ParseProto_mono 2); [lia | reflexivity | discriminate].
  - reflexivity.
  - reflexivity.
  - apply bytes_message_never_finishes.
Qed.

(** ** The multimap *)

Local Open Scope Z_scope.

Lemma lookup_store_same (m : Message) (id : Z) (fields : list Field) :
  lookup (store m id fields) id = Some fields.
Proof.
  induction m as [| [k old] rest IH]; simpl.
  - rewrite Z.eqb_refl. reflexivity.
  - destruct (k =? id) eqn:E; simpl; rewrite E; [reflexivity | exact IH].
Qed.

Lemma lookup_store_other (m : Message) (id k : Z) (fields : list Field) :
  k <> id -> lookup (store m id fields) k = lookup m k.
Proof.
  intros Hk. induction m as [| [k' old] rest IH]; simpl.
  - destruct (id =? k) eqn:E; [apply Z.eqb_eq in E; congruence | reflexivity].
  - destruct (k' =? id) eqn:E; simpl.
    + apply Z.eqb_eq in E. subst k'.
      destruct (id =? k) eqn:E2; [apply Z.eqb_eq in E2; congruence |].
      reflexivity.
    + destruct (k' =? k); [reflexivity | exact IH].
Qed.

Lemma lookup_In (m : Message) (id : Z) (fields : list Field) :
  lookup m id = Some fields -> In (id, fields) m.
Proof.
  induction m as [| [k old] rest IH]; simpl; [discriminate |].
  destruct (k =? id) eqn:E.
  - apply Z.eqb_eq in E. intros H; inversion H; subst. left. reflexivity.
  - intros H. right. apply IH. exact H.
Qed.

Lemma In_store (m : Message) (id : Z) (fields : list Field)
      (e : Z * list Field) :
  In e (store m id fields) -> e = (id, fields) \/ In e m.
Proof.
  induction m as [| [k old] rest IH]; simpl.
  - intros [H | []]. left. symmetry. exact H.
  - destruct (k =? id) eqn:E; simpl.
    + apply Z.eqb_eq in E. subst k. intros [H | H]; auto.
    + intros [H | H]; auto. destruct (IH H); auto.
Qed.

(** [addField] puts the new field behind the fields already stored under
    its number, and leaves every other number as it was. *)
Lemma occurrences_addField (m : Message) (id k : Z) (f : Field) :
  occurrences (addField m id f) k
  = (occurrences m k ++ (if k =? id then [f] else []))%list.
Proof.
  unfold occurrences, addField.
  destruct (k =? id) eqn:E.
  - apply Z.eqb_eq in E. subst k.
    destruct (lookup m id) as [fields |]; rewrite lookup_store_same; reflexivity.
  - apply Z.eqb_neq in E.
    destruct (lookup m id) as [fields |];
      rewrite lookup_store_other by exact E; rewrite app_nil_r; reflexivity.
Qed.

Lemma map_fst_store (m : Message) (id : Z) (fields : list Field) :
  map fst (store m id fields)
  = if existsb (Z.eqb id) (map fst m) then map fst m
    else (map fst m ++ [id])%list.
Proof.
  induction m as [| [k old] rest IH]; simpl; [reflexivity |].
  rewrite (Z.eqb_sym id k).
  destruct (k =? id) eqn:E; simpl; [reflexivity |].
  rewrite IH. destruct (existsb (Z.eqb id) (map fst rest)); reflexivity.
Qed.

Lemma store_keys_distinct (m : Message) (id : Z) (fields : list Field) :
  NoDup (map fst m) -> NoDup (map fst (store m id fields)).
Proof.
  intros H. rewrite map_fst_store.
  destruct (existsb (Z.eqb id) (map fst m)) eqn:E; [exact H |].
  apply NoDup_app; [exact H | repeat constructor; auto |].
  intros x Hx [Hx' | []]. subst x.
  assert (T : existsb (Z.eqb id) (map fst m) = true).
  { apply existsb_exists. exists id. split; [exact Hx | apply Z.eqb_refl]. }
  congruence.
Qed.

Lemma addField_keys_distinct (m : Message) (id : Z) (f : Field) :
  NoDup (map fst m) -> NoDup (map fst (addField m id f)).
Proof.
  unfold addField. destruct (lookup m id); apply store_keys_distinct.
Qed.

Lemma addField_no_empty_sequence (m : Message) (id : Z) (f : Field) :
  no_empty_sequence m -> no_empty_sequence (addField m id f).
Proof.
  unfold no_empty_sequence, addField. intros H k fields Hin.
  destruct (lookup m id) as [old |];
    apply In_store in Hin; destruct Hin as [Hin | Hin];
    try (eapply H; eassumption);
    inversion Hin; subst.
  - destruct old; discriminate.
  - discriminate.
Qed.

(** ** What one iteration stores *)

(** Every iteration that succeeds adds one field, built with one member
    set; a nested message comes from a successful recursive decode. *)
Lemma loop_body_adds (sub : list byte -> outcome (Message * Z))
      (data : list byte) (pos : Z) (msg msg' : Message) (pos' : Z) :
  loop_body sub data pos msg = Ok (msg', pos') ->
  exists id f,
    msg' = addField msg id f
    /\ populated f = 1%nat
    /\ (forall sm, message f = Some sm -> exists c k, sub c = Ok (sm, k)).
Proof.
  unfold loop_body.
  destruct (ParseTag (slice_from data pos)) as [[tag n] | e | |] eqn:T;
    try discriminate.
  apply ParseTag_Ok in T. destruct T as (x0 & _ & _ & Htyp).
  destruct (typ tag =? Varint) eqn:E0.
  { destruct (DecodeVarint (slice_from data (pos + n))) as [x n2].
    intros H; inversion H; subst.
    eexists; eexists; split; [reflexivity | split; [reflexivity |]].
    simpl. discriminate. }
  destruct (typ tag =? B32) eqn:E5.
  { destruct (DecodeFixed32 (slice_from data (pos + n))) as [x | e | |];
      try discriminate.
    intros H; inversion H; subst.
    eexists; eexists; split; [reflexivity | split; [reflexivity |]].
    simpl. discriminate. }
  destruct (typ tag =? B64) eqn:E1.
  { destruct (DecodeFixed64 (slice_from data (pos + n))) as [x | e | |];
      try discriminate.
    intros H; inversion H; subst.
    eexists; eexists; split; [reflexivity | split; [reflexivity |]].
    simpl. discriminate. }
  destruct (typ tag =? LengthDelim) eqn:E2.
  { destruct (DecodeVarint (slice_from data (pos + n))) as [x n2].
    destruct (_ >? _); try discriminate.
    destruct (_ <? _); try discriminate.
    match goal with
    | |- context [sub ?c] => destruct (sub c) as [[sm k] | e | |] eqn:S
    end; try discriminate.
    - intros H; inversion H; subst.
      eexists; eexists; split; [reflexivity | split; [reflexivity |]].
      simpl. intros sm' Hsm. inversion Hsm; subst. eauto.
    - destruct (utf8_Valid _); intros H; inversion H; subst;
        (eexists; eexists; split; [reflexivity | split; [reflexivity |]]);
        simpl; discriminate. }
  apply Z.eqb_neq in E0, E5, E1, E2. intuition congruence.
Qed.

(** ** The invariant of decoded messages *)

Lemma field_ok_unfold (f : Field) :
  field_ok f
  = Nat.eqb (populated f) 1
    && match message f with Some m => message_ok m | None => true end.
Proof.
  destruct f as [n s [m |] b]; [| reflexivity].
  cbn [field_ok message]. f_equal. unfold message_ok.
  induction m as [| [id fields] rest IH]; [reflexivity |].
  cbn [forallb snd]. rewrite IH. reflexivity.
Qed.

Lemma store_ok (m : Message) (id : Z) (fields : list Field) :
  message_ok m = true -> forallb field_ok fields = true ->
  message_ok (store m id fields) = true.
Proof.
  unfold message_ok. intros Hm Hf.
  induction m as [| [k old] rest IH]; simpl.
  - rewrite Hf. reflexivity.
  - simpl in Hm. apply andb_true_iff in Hm. destruct Hm as [Hold Hrest].
    destruct (k =? id); simpl.
    + rewrite Hf, Hrest. reflexivity.
    + rewrite Hold, (IH Hrest). reflexivity.
Qed.

Lemma lookup_ok (m : Message) (id : Z) (fields : list Field) :
  message_ok m = true -> lookup m id = Some fields ->
  forallb field_ok fields = true.
Proof.
  unfold message_ok. intros Hm.
  induction m as [| [k old] rest IH]; simpl; [discriminate |].
  simpl in Hm. apply andb_true_iff in Hm. destruct Hm as [Hold Hrest].
  destruct (k =? id).
  - intros H; inversion H; subst. exact Hold.
  - apply IH. exact Hrest.
Qed.

Lemma addField_ok (m : Message) (id : Z) (f : Field) :
  message_ok m = true -> field_ok f = true ->
  message_ok (addField m id f) = true.
Proof.
  intros Hm Hf. unfold addField.
  destruct (lookup m id) as [fields |] eqn:L.
  - apply store_ok; [exact Hm |].
    rewrite forallb_app. rewrite (lookup_ok _ _ _ Hm L). simpl.
    rewrite Hf. reflexivity.
  - apply store_ok; [exact Hm |]. simpl. rewrite Hf. reflexivity.
Qed.

Lemma ParseProto_loop_ok (fuel : nat) :
  forall (data : list byte) (pos : Z) (msg msg' : Message) (pos' : Z),
    message_ok msg = true ->
    ParseProto_loop fuel data pos msg = Ok (msg', pos') ->
    message_ok msg' = true.
Proof.
  induction fuel as [| fuel IH]; intros data pos msg msg' pos' Hm H;
    simpl in H; [discriminate |].
  destruct (pos <? len data).
  - destruct (loop_body _ data pos msg) as [[msg1 pos1] | e | |] eqn:E;
      try discriminate.
    apply loop_body_adds in E. destruct E as (id & f & -> & Hp & Hsub).
    eapply IH; [| exact H].
    apply addField_ok; [exact Hm |].
    rewrite field_ok_unfold, Hp. simpl.
    destruct (message f) as [sm |] eqn:M; [| reflexivity].
    destruct (Hsub sm eq_refl) as (c & k & Hc).
    eapply IH; [| exact Hc]. reflexivity.
  - inversion H; subst. exact Hm.
Qed.

Lemma populated_one (f : Field) :
  populated f = 1%nat -> exactly_one_variant f.
Proof.
  unfold populated, exactly_one_variant.
  destruct f as [[n |] [s |] [m |] [b |]]; simpl; intros H; try discriminate.
  - left. repeat split; try reflexivity; discriminate.
  - right. left. repeat split; try reflexivity; discriminate.
  - right. right. left. repeat split; try reflexivity; discriminate.
  - right. right. right. repeat split; try reflexivity; discriminate.
Qed.

Lemma message_ok_In (m : Message) (id : Z) (fields : list Field) (f : Field) :
  message_ok m = true -> In (id, fields) m -> In f fields ->
  field_ok f = true.
Proof.
  unfold message_ok. intros Hm Hi Hf.
  rewrite forallb_forall in Hm. specialize (Hm _ Hi). simpl in Hm.
  rewrite forallb_forall in Hm. apply Hm. exact Hf.
Qed.

Lemma message_ok_within (m : Message) (f : Field) :
  within m f -> message_ok m = true -> populated f = 1%nat.
Proof.
  induction 1 as [m id fields f Hi Hf | m id fields g sub f Hi Hg Hs Hw IH];
    intros Hm.
  - pose proof (message_ok_In _ _ _ _ Hm Hi Hf) as Hok.
    rewrite field_ok_unfold in Hok. apply andb_true_iff in Hok.
    apply Nat.eqb_eq. apply Hok.
  - pose proof (message_ok_In _ _ _ _ Hm Hi Hg) as Hok.
    rewrite field_ok_unfold, Hs in Hok. apply andb_true_iff in Hok.
    apply IH. apply Hok.
Qed.

(** C9.  In the message of a successful decode, every field at every depth
    (each element of the sequence of each field number, at the top level
    and in every nested message) has one of [numeric], [string], [message],
    [bytes] set and the other three nil. *)
Theorem ParseProto_exactly_one_variant :
  forall (fuel : nat) (data : list byte) (m : Message) (n : Z) (f : Field),
    ParseProto fuel data = Ok (m, n) -> within m f -> exactly_one_variant f.
Proof.
  intros fuel data m n f Hp Hw.
  apply populated_one. apply (message_ok_within m f Hw).
  unfold ParseProto in Hp.
  eapply ParseProto_loop_ok; [| exact Hp]. reflexivity.
Qed.

Lemma ParseProto_exactly_one_variant_witness :
  exactly_one_variant (mkField (Some 5) None None None)
  /\ exactly_one_variant
       (mkField None None (Some [(1, [mkField (Some 5) None None None])]) None).
Proof.
  split.
  - apply (ParseProto_exactly_one_variant 3 [x12; x02; x08; x05]
             [(2, [mkField None None
                     (Some [(1, [mkField (Some 5) None None None])]) None])]
             4).
    + reflexivity.
    + eapply within_nested.
      * left. reflexivity.
      * left. reflexivity.
      * reflexivity.
      * eapply within_here; [left; reflexivity | left; reflexivity].
  - apply (ParseProto_exactly_one_variant 3 [x12; x02; x08; x05]
             [(2, [mkField None None
                     (Some [(1, [mkField (Some 5) None None None])]) None])]
             4).
    + reflexivity.
    + eapply within_here; [left; reflexivity | left; reflexivity].
Defined.

(** ** Length-delimited fields *)

(** The iteration on a length-delimited field whose [x] bytes are there:
    the content is handed to the recursive decoder, and the three ways of
    storing the field are tried in the order of the source. *)
Lemma loop_body_length_delim (sub : list byte -> outcome (Message * Z))
      (data : list byte) (pos : Z) (msg : Message) (tag : Tag) (n x n2 : Z) :
  0 <= pos -> len data < two63 ->
  ParseTag (slice_from data pos) = Ok (tag, n) ->
  typ tag = LengthDelim ->
  DecodeVarint (slice_from data (pos + n)) = (x, n2) ->
  pos + n + n2 + x <= len data ->
  loop_body sub data pos msg
  = match sub (slice data (pos + n + n2) (pos + n + n2 + x)) with
    | Ok (subMsg, _) =>
        Ok (addField msg (fieldID tag) (mkField None None (Some subMsg) None),
            pos + n + n2 + x)
    | Err _ =>
        if utf8_Valid (slice data (pos + n + n2) (pos + n + n2 + x)) then
          Ok (addField msg (fieldID tag)
                (mkField None
                   (Some (slice data (pos + n + n2) (pos + n + n2 + x)))
                   None None),
              pos + n + n2 + x)
        else
          Ok (addField msg (fieldID tag)
                (mkField None None None
                   (Some (slice data (pos + n + n2) (pos + n + n2 + x)))),
              pos + n + n2 + x)
    | Panic => Panic
    | OutOfFuel => OutOfFuel
    end.
Proof.
  intros Hpos Hlen T Htyp V Hfit.
  pose proof (DecodeVarint_value _ _ _ V) as Hx.
  pose proof (DecodeVarint_loop_consumed _ _ _ _ _ _ V) as Hn2.
  pose proof (ParseTag_Ok _ _ _ T) as (x0 & T0 & _ & _).
  pose proof (DecodeVarint_loop_consumed _ _ _ _ _ _ T0) as Hn.
  pose proof (len_nonneg (slice_from data pos)).
  pose proof (len_nonneg (slice_from data (pos + n))).
  assert (Hn' : 0 <= n) by lia.
  assert (Hn2' : 0 <= n2) by lia.
  unfold loop_body. rewrite T, Htyp.
  change (LengthDelim =? Varint) with false.
  change (LengthDelim =? B32) with false.
  change (LengthDelim =? B64) with false.
  change (LengthDelim =? LengthDelim) with true.
  cbv iota. rewrite V.
  rewrite (to_int_small x) by lia.
  rewrite (to_int_small (pos + n + n2 + x)) by lia.
  replace (pos + n + n2 + x >? len data) with false
    by (symmetry; rewrite Z.gtb_ltb; apply Z.ltb_ge; lia).
  replace (pos + n + n2 + x <? pos + n + n2) with false
    by (symmetry; apply Z.ltb_ge; lia).
  reflexivity.
Qed.

(** When the recursive decode returns.  For a length-delimited field whose
    declared [x] bytes are present, the three classifications are tried in
    order.  (1) When the recursive
    decode of the content succeeds it has consumed the whole content, and
    the field is stored as a nested message.  (2) When it returns an error
    and the content is valid UTF-8, the field is stored as text, and (3)
    otherwise as bytes.  The error of the recursive decode is not passed on:
    the iteration never returns an error. *)
Theorem classifier_policy :
  forall (fuel : nat) (data : list byte) (pos : Z) (msg : Message)
         (tag : Tag) (n x n2 : Z),
    0 <= pos -> len data < two63 ->
    ParseTag (slice_from data pos) = Ok (tag, n) ->
    typ tag = LengthDelim ->
    DecodeVarint (slice_from data (pos + n)) = (x, n2) ->
    pos + n + n2 + x <= len data ->
    let content := slice data (pos + n + n2) (pos + n + n2 + x) in
    let iteration := loop_body (ParseProto fuel) data pos msg in
    let stored f := Ok (addField msg (fieldID tag) f, pos + n + n2 + x) in
    (forall m k,
        ParseProto fuel content = Ok (m, k) ->
        k = len content
        /\ iteration = stored (mkField None None (Some m) None))
    /\ (forall e,
           ParseProto fuel content = Err e -> utf8_Valid content = true ->
           iteration = stored (mkField None (Some content) None None))
    /\ (forall e,
           ParseProto fuel content = Err e -> utf8_Valid content = false ->
           iteration = stored (mkField None None None (Some content)))
    /\ (forall e, iteration <> Err e).
Proof.
  intros fuel data pos msg tag n x n2 Hpos Hlen T Htyp V Hfit
         content iteration stored.
  assert (E := loop_body_length_delim (ParseProto fuel) data pos msg
                 tag n x n2 Hpos Hlen T Htyp V Hfit).
  fold content in E. fold iteration in E.
  split; [| split; [| split]].
  - intros m k Hc. split.
    + eapply ParseProto_end. exact Hc.
    + rewrite E, Hc. reflexivity.
  - intros e Hc Hu. rewrite E, Hc, Hu. reflexivity.
  - intros e Hc Hu. rewrite E, Hc, Hu. reflexivity.
  - intros e. rewrite E.
    destruct (ParseProto fuel content) as [[m k] | e' | |];
      try discriminate.
    destruct (utf8_Valid content); discriminate.
Qed.

Lemma classifier_policy_witness :
  loop_body (ParseProto 2) [x0a; x02; x08; x05] 0 []
  = Ok ([(1, [mkField None None
                (Some [(1, [mkField (Some 5) None None None])]) None])], 4)
  /\ loop_body (ParseProto 2) [x0a; x02; x41; x42] 0 []
     = Ok ([(1, [mkField None (Some [x41; x42]) None None])], 4)
  /\ loop_body (ParseProto 2) [x0a; x02; xff; x03] 0 []
     = Ok ([(1, [mkField None None None (Some [xff; x03])])], 4).
Proof.
  split; [| split].
  - apply (proj1 (classifier_policy 2 [x0a; x02; x08; x05] 0 [] (mkTag 1 2)
                    1 2 1 (Z.le_refl 0) eq_refl eq_refl eq_refl eq_refl
                    (Z.le_refl 4))
                 [(1, [mkField (Some 5) None None None])] 2 eq_refl).
  - apply (proj1 (proj2
                    (classifier_policy 2 [x0a; x02; x41; x42] 0 [] (mkTag 1 2)
                       1 2 1 (Z.le_refl 0) eq_refl eq_refl eq_refl eq_refl
                       (Z.le_refl 4)))
                 UnexpectedEOF eq_refl eq_refl).
  - apply (proj1 (proj2 (proj2
                    (classifier_policy 2 [x0a; x02; xff; x03] 0 [] (mkTag 1 2)
                       1 2 1 (Z.le_refl 0) eq_refl eq_refl eq_refl eq_refl
                       (Z.le_refl 4))))
                 (InvalidFieldType 7) eq_refl eq_refl).
Defined.

(** C6 (the code departs from the claim).  The claim has every payload
    classified and every failure of the recursive decode absorbed.  The
    message [0x0a 0x02 0xff 0xfe] carries the payload [0xff 0xfe], which is
    not valid UTF-8 and which the claim stores as bytes.  The payload opens
    with a tag cut short, so its recursive decode never finishes: the
    iteration on the field yields no classification, with any fuel, and
    neither does the decode of the message.  A second failure is passed on
    to the caller: a payload that declares the length [2^64 - 1] makes the
    recursive decode panic, and the decode of the enclosing message panics
    with it. *)
Theorem classifier_failure_not_absorbed :
  utf8_Valid [xff; xfe] = false
  /\ (forall fuel : nat,
         ParseProto fuel [xff; xfe] = OutOfFuel
         /\ loop_body (ParseProto fuel) [x0a; x02; xff; xfe] 0 [] = OutOfFuel
         /\ ParseProto fuel [x0a; x02; xff; xfe] = OutOfFuel)
  /\ (forall fuel : nat,
         ParseProto (S fuel)
           [x0a; xff; xff; xff; xff; xff; xff; xff; xff; xff; x01]
         = Panic
         /\ ParseProto (S (S fuel))
              [x0a; x0b;
               x0a; xff; xff; xff; xff; xff; xff; xff; xff; xff; x01]
            = Panic).
Proof.
  split; [reflexivity | split].
  - intros fuel.
    assert (H : ParseProto fuel [xff; xfe] = OutOfFuel).
    { unfold ParseProto. apply ParseProto_loop_truncated_tag; reflexivity. }
    split; [exact H | split].
    + assert (U : loop_body (ParseProto fuel) [x0a; x02; xff; xfe] 0 []
                  = match ParseProto fuel [xff; xfe] with
                    | Ok (subMsg, _) =>
                        Ok (addField [] 1
                              (mkField None None (Some subMsg) None), 4)
                    | Err _ =>
                        Ok (addField [] 1
                              (mkField None None None (Some [xff; xfe])), 4)
                    | Panic => Panic
                    | OutOfFuel => OutOfFuel
                    end) by reflexivity.
      rewrite U, H. reflexivity.
    + apply bytes_message_never_finishes.
  - intros fuel. split.
    + apply (ParseProto_mono 1); [lia | reflexivity | discriminate].
    + apply (ParseProto_mono 2); [lia | reflexivity | discriminate].
Qed.

(** ** The empty message *)





(** ** Repeated fields *)

Lemma loop_body_appends (sub : list byte -> outcome (Message * Z))
      (data : list byte) (pos : Z) (msg msg' : Message) (pos' : Z) :
  loop_body sub data pos msg = Ok (msg', pos') ->
  exists id f,
    forall k,
      occurrences msg' k
      = (occurrences msg k ++ (if k =? id then [f] else []))%list.
Proof.
  intros H. apply loop_body_adds in H. destruct H as (id & f & -> & _).
  exists id, f. intros k. apply occurrences_addField.
Qed.

Lemma ParseProto_loop_appends (fuel : nat) :
  forall (data : list byte) (pos : Z) (msg msg' : Message) (pos' : Z),
    ParseProto_loop fuel data pos msg = Ok (msg', pos') ->
    forall k, exists later,
      occurrences msg' k = (occurrences msg k ++ later)%list.
Proof.
  induction fuel as [| fuel IH]; intros data pos msg msg' pos' H k;
    simpl in H; [discriminate |].
  destruct (pos <? len data).
  - destruct (loop_body _ data pos msg) as [[msg1 pos1] | e | |] eqn:E;
      try discriminate.
    apply loop_body_appends in E. destruct E as (id & f & E).
    destruct (IH _ _ _ _ _ H k) as (later & L).
    exists ((if k =? id then [f] else []) ++ later)%list.
    rewrite L, E. rewrite app_assoc. reflexivity.
  - inversion H; subst. exists []. rewrite app_nil_r. reflexivity.
Qed.

Lemma ParseProto_loop_shape (fuel : nat) :
  forall (data : list byte) (pos : Z) (msg msg' : Message) (pos' : Z),
    NoDup (map fst msg) -> no_empty_sequence msg ->
    ParseProto_loop fuel data pos msg = Ok (msg', pos') ->
    NoDup (map fst msg') /\ no_empty_sequence msg'.
Proof.
  induction fuel as [| fuel IH]; intros data pos msg msg' pos' Hk He H;
    simpl in H; [discriminate |].
  destruct (pos <? len data).
  - destruct (loop_body _ data pos msg) as [[msg1 pos1] | e | |] eqn:E;
      try discriminate.
    apply loop_body_adds in E. destruct E as (id & f & -> & _).
    eapply IH; [| | exact H].
    + apply addField_keys_distinct. exact Hk.
    + apply addField_no_empty_sequence. exact He.
  - inversion H; subst. split; assumption.
Qed.

Local Open Scope string_scope.

Lemma RenderEntry_rendered_entry
      (range : list (Z * list string) -> list (Z * list string))
      (e : Z * list Field) :
  RenderEntry (fst e, map (RenderField range) (snd e)) = rendered_entry range e.
Proof.
  destruct e as [id [| f [| g rest]]]; reflexivity.
Qed.

Lemma Render_entries
      (range : list (Z * list string) -> list (Z * list string))
      (m : Message) :
  iteration_order range ->
  exists order,
    Permutation order m
    /\ Render range m
       = "{" ++ Join (map (rendered_entry range) order) "," ++ "}".
Proof.
  intros Hr. unfold Render, RenderEntries.
  set (g := fun e : Z * list Field => (fst e, map (RenderField range) (snd e))).
  destruct (Permutation_map_inv g m (Hr (map g m))) as (order & E & P).
  exists order. split; [apply Permutation_sym; exact P |].
  rewrite E. rewrite map_map. f_equal. f_equal. f_equal.
  apply map_ext. intros e. apply RenderEntry_rendered_entry.
Qed.

Lemma field7_twice_decoded (fuel : nat) :
  ParseProto (3 + fuel) field7_twice = Ok (field7_decoded, 4%Z).
Proof.
  apply (ParseProto_mono 3); [lia | reflexivity | discriminate].
Qed.

Lemma field7_decoded_rendered
      (range : list (Z * list string) -> list (Z * list string)) :
  iteration_order range ->
  Render range field7_decoded = "{" ++ quoted "7" ++ ":[1,2]}".
Proof.
  intros Hr. unfold field7_decoded.
  rewrite Render_single by exact Hr. reflexivity.
Qed.

(** C8.  Storage: an iteration that succeeds puts the one field it decoded
    behind the fields already stored under the same number and leaves the
    other numbers alone, so through the rest of a decode the sequence of
    every number only grows at its end; a decoded message has one entry for
    each number and no empty sequence.  Rendering: the output is the entries
    of the map in the order of the iteration, joined by commas between
    braces; the entry of a number with one field is the quoted number, a
    colon and that field rendered, and the entry of a number with more
    fields has them rendered in their order, joined by commas between
    brackets.  Two varint fields 7 with the values 1 and 2 are stored as 1,
    2 and rendered as ["7":[1,2]]. *)
Theorem repeated_fields_in_encounter_order :
  (forall sub data pos msg msg' pos',
      loop_body sub data pos msg = Ok (msg', pos') ->
      exists id f,
        forall k,
          occurrences msg' k
          = (occurrences msg k ++ (if (k =? id)%Z then [f] else []))%list)
  /\ (forall fuel data pos msg msg' pos',
         ParseProto_loop fuel data pos msg = Ok (msg', pos') ->
         forall k, exists later,
           occurrences msg' k = (occurrences msg k ++ later)%list)
  /\ (forall fuel data m n,
         ParseProto fuel data = Ok (m, n) ->
         NoDup (map fst m) /\ no_empty_sequence m)
  /\ (forall range m,
         iteration_order range ->
         exists order,
           Permutation order m
           /\ Render range m
              = "{" ++ Join (map (rendered_entry range) order) "," ++ "}")
  /\ (forall range id f,
         rendered_entry range (id, [f])
         = quoted (fmt_d id) ++ ":" ++ RenderField range f)
  /\ (forall range id f g rest,
         rendered_entry range (id, f :: g :: rest)
         = quoted (fmt_d id) ++ ":["
           ++ Join (map (RenderField range) (f :: g :: rest)) "," ++ "]")
  /\ (forall range fuel,
         iteration_order range ->
         exists m,
           ParseProto (3 + fuel) field7_twice = Ok (m, 4%Z)
           /\ occurrences m 7
              = [mkField (Some 1%Z) None None None;
                 mkField (Some 2%Z) None None None]
           /\ Render range m = "{" ++ quoted "7" ++ ":[1,2]}").
Proof.
  split; [| split; [| split; [| split; [| split; [| split]]]]].
  - apply loop_body_appends.
  - intros fuel. apply ParseProto_loop_appends.
  - intros fuel data m n H. unfold ParseProto in H.
    eapply ParseProto_loop_shape; [| | exact H].
    + apply NoDup_nil.
    + intros id fields [].
  - apply Render_entries.
  - reflexivity.
  - reflexivity.
  - intros range fuel Hr. exists field7_decoded. split; [| split].
    + apply field7_twice_decoded.
    + reflexivity.
    + apply field7_decoded_rendered. exact Hr.
Qed.

Lemma repeated_fields_in_encounter_order_witness :
  (exists m,
      ParseProto 3 field7_twice = Ok (m, 4%Z)
      /\ Render (fun entries => entries) m = "{" ++ quoted "7" ++ ":[1,2]}")
  /\ (exists later,
         occurrences field7_decoded 7
         = ([mkField (Some 1%Z) None None None] ++ later)%list)
  /\ NoDup (map fst field7_decoded).
Proof.
  pose proof repeated_fields_in_encounter_order
    as (_ & Hloop & Hshape & _ & _ & _ & Hex).
  split; [| split].
  - destruct (Hex (fun entries => entries) 0%nat iteration_order_id)
      as (m & Hp & _ & Hs).
    exists m. split; assumption.
  - apply (Hloop 2%nat field7_twice 2%Z
             [(7%Z, [mkField (Some 1%Z) None None None])]
             field7_decoded 4%Z eq_refl 7%Z).
  - apply (Hshape 3%nat field7_twice field7_decoded 4%Z eq_refl).
Defined.

(** ** Runs that finish

    The decode does finish on buffers without continuation bytes: there
    every varint is one byte long, every iteration moves the cursor, and a
    fuel of one more than the length of the buffer is enough. *)

Local Open Scope Z_scope.

Lemma Forall_skipn {A : Type} (P : A -> Prop) (k : nat) :
  forall l : list A, Forall P l -> Forall P (skipn k l).
Proof.
  induction k as [| k IH]; intros l H; [exact H |].
  destruct l as [| a l]; [exact H |].
  simpl. apply IH. inversion H; assumption.
Qed.

Lemma Forall_firstn {A : Type} (P : A -> Prop) (k : nat) :
  forall l : list A, Forall P l -> Forall P (firstn k l).
Proof.
  induction k as [| k IH]; intros l H; [constructor |].
  destruct l as [| a l]; [constructor |].
  simpl. inversion H; subst. constructor; [assumption | apply IH; assumption].
Qed.

Lemma no_continuation_slice (data : list byte) (lo hi : Z) :
  no_continuation data -> no_continuation (slice data lo hi).
Proof.
  unfold no_continuation, slice. intros H.
  apply Forall_firstn. apply Forall_skipn. exact H.
Qed.

Lemma no_continuation_varint (data : list byte) (pos : Z) :
  no_continuation data -> 0 <= pos < len data ->
  exists x, DecodeVarint (slice_from data pos) = (x, 1).
Proof.
  intros H Hpos.
  assert (Hs : no_continuation (slice_from data pos)).
  { unfold no_continuation, slice_from in *. apply Forall_skipn. exact H. }
  assert (L : len (slice_from data pos) = len data - pos)
    by (apply len_slice_from; lia).
  destruct (slice_from data pos) as [| b rest].
  - rewrite len_nil in L. lia.
  - exists (b2z b). apply DecodeVarint_one_byte.
    inversion Hs; subst. assumption.
Qed.

(** Where an iteration ends: behind the tag when it succeeds; and it runs
    out of fuel only inside the recursive decode of a content that lies
    behind the tag. *)
Lemma loop_body_behind_tag (sub : list byte -> outcome (Message * Z))
      (data : list byte) (pos : Z) (msg : Message) :
  0 <= pos <= len data ->
  match loop_body sub data pos msg with
  | Ok (_, pos') =>
      exists tag n,
        ParseTag (slice_from data pos) = Ok (tag, n) /\ pos + n <= pos'
  | OutOfFuel =>
      exists tag n lo hi,
        ParseTag (slice_from data pos) = Ok (tag, n)
        /\ pos + n <= lo /\ lo <= hi <= len data
        /\ sub (slice data lo hi) = OutOfFuel
  | _ => True
  end.
Proof.
  intros Hpos. unfold loop_body.
  destruct (ParseTag (slice_from data pos)) as [[tag n] | e | |] eqn:T;
    try exact I.
  - pose proof (ParseTag_consumed _ _ _ T) as Hn.
    rewrite len_slice_from in Hn by lia.
    destruct (typ tag =? Varint).
    { destruct (DecodeVarint (slice_from data (pos + n))) as [x n2] eqn:V.
      apply DecodeVarint_consumed in V.
      exists tag, n. split; [reflexivity | lia]. }
    destruct (typ tag =? B32).
    { pose proof (DecodeFixed32_not_stuck (slice_from data (pos + n)))
        as [_ N].
      destruct (DecodeFixed32 (slice_from data (pos + n)));
        try exact I; try contradiction.
      exists tag, n. split; [reflexivity | lia]. }
    destruct (typ tag =? B64).
    { pose proof (DecodeFixed64_not_stuck (slice_from data (pos + n)))
        as [_ N].
      destruct (DecodeFixed64 (slice_from data (pos + n)));
        try exact I; try contradiction.
      exists tag, n. split; [reflexivity | lia]. }
    destruct (typ tag =? LengthDelim).
    { destruct (DecodeVarint (slice_from data (pos + n))) as [x n2] eqn:V.
      apply DecodeVarint_consumed in V.
      destruct (_ >? _) eqn:G; try exact I.
      destruct (_ <? _) eqn:L; try exact I.
      apply Z.ltb_ge in L.
      assert (G' : to_int (pos + n + n2 + to_int x) <= len data).
      { destruct (Z.gtb_spec (to_int (pos + n + n2 + to_int x)) (len data));
          [discriminate | lia]. }
      match goal with
      | |- context [sub ?c] => destruct (sub c) as [[sm k] | e | |] eqn:S
      end; try exact I.
      - exists tag, n. split; [reflexivity | lia].
      - destruct (utf8_Valid _); exists tag, n; (split; [reflexivity | lia]).
      - exists tag, n, (pos + n + n2), (to_int (pos + n + n2 + to_int x)).
        repeat split; try lia. exact S. }
    exists tag, n. split; [reflexivity | lia].
  - pose proof (ParseTag_not_stuck (slice_from data pos)) as [_ N].
    contradiction.
Qed.

Lemma ParseProto_loop_finishes (fuel : nat) :
  forall (data : list byte) (pos : Z) (msg : Message),
    no_continuation data -> 0 <= pos <= len data ->
    len data - pos < Z.of_nat fuel ->
    ParseProto_loop fuel data pos msg <> OutOfFuel.
Proof.
  induction fuel as [| fuel IH]; intros data pos msg Hd Hpos Hf; [lia |].
  simpl. destruct (pos <? len data) eqn:L; [| discriminate].
  apply Z.ltb_lt in L.
  destruct (no_continuation_varint data pos Hd) as (x & V); [lia |].
  pose proof (loop_body_behind_tag
                (fun content => ParseProto_loop fuel content 0 [])
                data pos msg Hpos) as B.
  destruct (loop_body _ data pos msg) as [[msg1 pos1] | e | |] eqn:E;
    try discriminate.
  - destruct B as (tag & n & T & Hn).
    apply ParseTag_Ok in T. destruct T as (x' & V' & _).
    rewrite V in V'. inversion V'; subst.
    apply loop_body_cursor in E; [| exact Hpos].
    apply IH; [exact Hd | lia | lia].
  - destruct B as (tag & n & lo & hi & T & Hlo & Hhi & S).
    apply ParseTag_Ok in T. destruct T as (x' & V' & _).
    rewrite V in V'. inversion V'; subst.
    exfalso. revert S. apply IH.
    + apply no_continuation_slice. exact Hd.
    + pose proof (len_nonneg (slice data lo hi)). lia.
    + rewrite len_slice by lia. lia.
Qed.

Lemma ParseProto_finishes (data : list byte) :
  no_continuation data ->
  ParseProto (S (List.length data)) data <> OutOfFuel.
Proof.
  intros H. unfold ParseProto. apply ParseProto_loop_finishes.
  - exact H.
  - pose proof (len_nonneg data). lia.
  - unfold len. lia.
Qed.

(** ** Truncated fields that are reported

    The fixed-width readers and the length check do report a field that is
    cut short. *)

Lemma DecodeFixed32_short (buf : list byte) :
  len buf < 4 -> DecodeFixed32 buf = Err UnexpectedEOF.
Proof.
  destruct buf as [| b0 [| b1 [| b2 [| b3 rest]]]]; try reflexivity.
  repeat rewrite len_cons. pose proof (len_nonneg rest). lia.
Qed.

Lemma DecodeFixed64_short (buf : list byte) :
  len buf < 8 -> DecodeFixed64 buf = Err UnexpectedEOF.
Proof.
  destruct buf as [| b0 [| b1 [| b2 [| b3 [| b4 [| b5 [| b6 [| b7 rest]]]]]]]];
    try reflexivity.
  repeat rewrite len_cons. pose proof (len_nonneg rest). lia.
Qed.

Lemma loop_body_fixed32_truncated (sub : list byte -> outcome (Message * Z))
      (data : list byte) (pos : Z) (msg : Message) (tag : Tag) (n : Z) :
  0 <= pos <= len data ->
  ParseTag (slice_from data pos) = Ok (tag, n) -> typ tag = B32 ->
  len data - (pos + n) < 4 ->
  loop_body sub data pos msg = Err UnexpectedEOF.
Proof.
  intros Hpos T Htyp Hshort.
  pose proof (ParseTag_consumed _ _ _ T) as Hn.
  rewrite len_slice_from in Hn by lia.
  unfold loop_body. rewrite T, Htyp.
  change (B32 =? Varint) with false. change (B32 =? B32) with true.
  cbv iota. rewrite DecodeFixed32_short; [reflexivity |].
  rewrite len_slice_from by lia. lia.
Qed.

Lemma loop_body_fixed64_truncated (sub : list byte -> outcome (Message * Z))
      (data : list byte) (pos : Z) (msg : Message) (tag : Tag) (n : Z) :
  0 <= pos <= len data ->
  ParseTag (slice_from data pos) = Ok (tag, n) -> typ tag = B64 ->
  len data - (pos + n) < 8 ->
  loop_body sub data pos msg = Err UnexpectedEOF.
Proof.
  intros Hpos T Htyp Hshort.
  pose proof (ParseTag_consumed _ _ _ T) as Hn.
  rewrite len_slice_from in Hn by lia.
  unfold loop_body. rewrite T, Htyp.
  change (B64 =? Varint) with false. change (B64 =? B32) with false.
  change (B64 =? B64) with true.
  cbv iota. rewrite DecodeFixed64_short; [reflexivity |].
  rewrite len_slice_from by lia. lia.
Qed.

Lemma loop_body_length_overrun (sub : list byte -> outcome (Message * Z))
      (data : list byte) (pos : Z) (msg : Message) (tag : Tag) (n x n2 : Z) :
  0 <= pos <= len data -> len data < two63 ->
  ParseTag (slice_from data pos) = Ok (tag, n) -> typ tag = LengthDelim ->
  DecodeVarint (slice_from data (pos + n)) = (x, n2) ->
  len data - (pos + n + n2) < x -> pos + n + n2 + x < two63 ->
  loop_body sub data pos msg
  = Err (NotEnoughBytes x (len data - (pos + n + n2))).
Proof.
  intros Hpos Hlen T Htyp V Hover Hsmall.
  pose proof (ParseTag_consumed _ _ _ T) as Hn.
  rewrite len_slice_from in Hn by lia.
  pose proof (DecodeVarint_consumed _ _ _ V) as Hn2.
  pose proof (DecodeVarint_value _ _ _ V) as Hx.
  unfold loop_body. rewrite T, Htyp.
  change (LengthDelim =? Varint) with false.
  change (LengthDelim =? B32) with false.
  change (LengthDelim =? B64) with false.
  change (LengthDelim =? LengthDelim) with true.
  cbv iota. rewrite V.
  rewrite (to_int_small x) by lia.
  rewrite (to_int_small (pos + n + n2 + x)) by lia.
  replace (pos + n + n2 + x >? len data) with true
    by (symmetry; rewrite Z.gtb_ltb; apply Z.ltb_lt; lia).
  reflexivity.
Qed.

(** ** A declared length that does not fit an [int]

    The length of a length-delimited field is converted with [int(x)].  For
    [x = 2^64 - 1] that is [-1]: the length check passes, and the slice
    expression [data[pos : pos-1]] fails its bounds check. *)
Lemma length_above_int_panics (fuel : nat) :
  DecodeVarint [xff; xff; xff; xff; xff; xff; xff; xff; xff; x01]
  = (two64 - 1, 10)
  /\ ParseProto (S fuel)
       [x0a; xff; xff; xff; xff; xff; xff; xff; xff; xff; x01]
     = Panic.
Proof.
  split; [reflexivity |].
  apply (ParseProto_mono 1); [lia | reflexivity | discriminate].
Qed.

(** * Further properties of the decoder *)

(** ** The whole buffer *)

(** A decode that succeeds has read its buffer to the last byte: the count
    it returns is the length of the buffer. *)
Theorem ParseProto_consumes_whole_buffer :
  forall (fuel : nat) (data : list byte) (m : Message) (n : Z),
    ParseProto fuel data = Ok (m, n) -> n = len data.
Proof.
  intros fuel data m n H. eapply ParseProto_end. exact H.
Qed.

Lemma ParseProto_consumes_whole_buffer_witness :
  4 = len [x38; x01; x38; x02].
Proof.
  apply (ParseProto_consumes_whole_buffer 3 [x38; x01; x38; x02]
           [(7, [mkField (Some 1) None None None;
                 mkField (Some 2) None None None])] 4).
  reflexivity.
Defined.

(** A tag cut short anywhere stops the decode for good: when the varint
    reader fails at the cursor, with bytes left, the run does not finish,
    whatever it has decoded so far. *)
Theorem truncated_tag_never_finishes :
  forall (data : list byte) (pos : Z) (fuel : nat) (msg : Message),
    0 <= pos < len data ->
    snd (DecodeVarint (slice_from data pos)) = 0 ->
    ParseProto_loop fuel data pos msg = OutOfFuel.
Proof.
  intros data pos fuel msg Hpos Hv.
  apply ParseProto_loop_truncated_tag; [lia | exact Hv].
Qed.

Lemma truncated_tag_never_finishes_witness :
  ParseProto_loop 7 [x08; x01; xff; x80] 2
    [(1, [mkField (Some 1) None None None])] = OutOfFuel.
Proof.
  apply truncated_tag_never_finishes.
  - split; [discriminate | reflexivity].
  - reflexivity.
Defined.

(** ** The frame *)

Lemma frame_size_step (size : Z) (b : byte) (k : Z) :
  0 <= k -> 0 <= size < 2 ^ k ->
  0 <= Z.shiftl size 8 + b2z b < 2 ^ (k + 8).
Proof.
  intros Hk Hs. pose proof (b2z_range b).
  rewrite Z.shiftl_mul_pow2 by lia.
  rewrite Z.pow_add_r by lia. change (2 ^ 8) with 256. nia.
Qed.

(** The size read from the header is below [2^40]: five bytes, so the
    accumulation never leaves the range of a 64-bit [int]. *)
Theorem frame_size_below_2_40 :
  forall data : list byte, 0 <= frame_size data < 2 ^ 40.
Proof.
  intros data. unfold frame_size.
  assert (G : forall (l : list byte) (k size : Z),
             (List.length l <= 5)%nat -> 0 <= k -> 0 <= size < 2 ^ k ->
             0 <= fold_left (fun size b => Z.shiftl size 8 + b2z b) l size
             < 2 ^ (k + 8 * len l)).
  { induction l as [| b l IH]; intros k size Hl Hk Hs.
    - change (len (@nil byte)) with 0. cbn [fold_left].
      rewrite Z.mul_0_r, Z.add_0_r. exact Hs.
    - simpl fold_left. rewrite len_cons.
      replace (k + 8 * (len l + 1)) with ((k + 8) + 8 * len l) by lia.
      apply IH; [simpl in Hl; lia | lia |].
      apply frame_size_step; assumption. }
  pose proof (G (firstn 5 data) 0 0) as H.
  assert (L : (List.length (firstn 5 data) <= 5)%nat)
    by (rewrite length_firstn; lia).
  specialize (H L (Z.le_refl 0)).
  assert (B : 0 <= 0 < 2 ^ 0) by (simpl; lia).
  specialize (H B).
  assert (P : 2 ^ (0 + 8 * len (firstn 5 data)) <= 2 ^ 40).
  { apply Z.pow_le_mono_r; [lia |]. unfold len. lia. }
  lia.
Qed.

Lemma ParseGrpc_frame :
  forall (fuel : nat) (header payload trailing : list byte),
    len header = 5 -> frame_size header = len payload ->
    ParseGrpc fuel (header ++ payload ++ trailing)
    = match ParseProto fuel payload with
      | Ok (msg, _) => Ok (msg, len payload + 5)
      | Err e => Err e
      | Panic => Panic
      | OutOfFuel => OutOfFuel
      end.
Proof.
  intros fuel header payload trailing Hh Hs.
  assert (Hh' : List.length header = 5%nat) by (unfold len in Hh; lia).
  unfold ParseGrpc.
  assert (L : len (header ++ payload ++ trailing)
              = 5 + len payload + len trailing).
  { unfold len in *. repeat rewrite length_app. lia. }
  pose proof (len_nonneg payload). pose proof (len_nonneg trailing).
  replace (len (header ++ payload ++ trailing) <? 5) with false
    by (symmetry; apply Z.ltb_ge; lia).
  assert (F : frame_size (header ++ payload ++ trailing) = len payload).
  { rewrite <- Hs. unfold frame_size.
    rewrite firstn_app. rewrite Hh'. rewrite Nat.sub_diag.
    change (firstn 0 (payload ++ trailing)%list) with (@nil byte).
    rewrite app_nil_r. reflexivity. }
  rewrite F.
  assert (S5 : slice_from (header ++ payload ++ trailing) 5
               = (payload ++ trailing)%list).
  { unfold slice_from. change (Z.to_nat 5) with 5%nat.
    rewrite skipn_app. rewrite Hh'. rewrite Nat.sub_diag.
    rewrite skipn_all2 by lia. reflexivity. }
  rewrite S5.
  replace (len (payload ++ trailing) <? len payload) with false
    by (symmetry; apply Z.ltb_ge; unfold len; rewrite length_app; lia).
  assert (P : slice (payload ++ trailing) 0 (len payload) = payload).
  { unfold slice. rewrite Z.sub_0_r. unfold len. rewrite Nat2Z.id.
    simpl skipn. rewrite firstn_app. rewrite Nat.sub_diag.
    rewrite firstn_all. simpl. apply app_nil_r. }
  rewrite P.
  destruct (ParseProto fuel payload) as [[msg n] | e | |] eqn:E;
    try reflexivity.
  apply ParseProto_end in E. subst n. reflexivity.
Qed.

(** A frame is a header of five bytes whose size is the length of the
    payload, the payload, and anything behind it.  [ParseGrpc] decodes the
    payload alone: the bytes behind it are not looked at, and on success the
    count is the length of the payload plus the five bytes of the header. *)
Theorem ParseGrpc_decodes_the_payload :
  forall (fuel : nat) (header payload trailing : list byte),
    len header = 5 -> frame_size header = len payload ->
    ParseGrpc fuel (header ++ payload ++ trailing)
    = match ParseProto fuel payload with
      | Ok (msg, _) => Ok (msg, len payload + 5)
      | Err e => Err e
      | Panic => Panic
      | OutOfFuel => OutOfFuel
      end.
Proof. exact ParseGrpc_frame. Qed.

Lemma ParseGrpc_decodes_the_payload_witness :
  ParseGrpc 2 ([x00; x00; x00; x00; x03] ++ [x08; x96; x01] ++ [xff; xff])
  = Ok ([(1, [mkField (Some 150) None None None])], 8).
Proof.
  apply (ParseGrpc_decodes_the_payload 2 [x00; x00; x00; x00; x03]
           [x08; x96; x01] [xff; xff]); reflexivity.
Defined.

(** ** The multimap, read back *)

(** Reading the map after [addField]: the number of the new field has the
    fields it had, followed by the new one; every other number reads as
    before. *)
Theorem addField_lookup :
  forall (m : Message) (id : Z) (f : Field) (k : Z),
    lookup (addField m id f) k
    = if k =? id then Some (occurrences m id ++ [f])%list else lookup m k.
Proof.
  intros m id f k. unfold addField, occurrences.
  destruct (k =? id) eqn:E.
  - apply Z.eqb_eq in E. subst k.
    destruct (lookup m id) as [fields |]; cbn [app];
      apply lookup_store_same.
  - apply Z.eqb_neq in E.
    destruct (lookup m id) as [fields |]; apply lookup_store_other; exact E.
Qed.

(** ** Tags *)

Lemma DecodeVarint_loop_at_most (buf : list byte) :
  forall k x n x' n',
    0 <= k ->
    DecodeVarint_loop buf (7 * k) x n = (x', n') ->
    n' = 0 \/ n' <= n + (10 - k).
Proof.
  induction buf as [| b rest IH]; intros k x n x' n' Hk H;
    cbn [DecodeVarint_loop] in H.
  - destruct (64 <=? 7 * k); inversion H; subst; left; reflexivity.
  - destruct (Z.leb_spec 64 (7 * k)) as [L | L];
      [inversion H; subst; left; reflexivity |].
    destruct (Z.land (b2z b) 128 =? 0).
    + inversion H; subst. right. lia.
    + replace (7 * k + 7) with (7 * (k + 1)) in H by lia.
      apply IH in H; [| lia]. destruct H as [H | H]; [auto | right; lia].
Qed.

Lemma shiftr_3_range (x : Z) : 0 <= x < two64 -> 0 <= Z.shiftr x 3 < 2 ^ 61.
Proof.
  unfold two64. intros H. rewrite Z.shiftr_div_pow2 by lia.
  change (2 ^ 3) with 8. split.
  - apply Z.div_pos; lia.
  - apply Z.div_lt_upper_bound; [lia |].
    change (8 * 2 ^ 61) with (2 ^ 64). lia.
Qed.

(** A tag takes at most ten bytes and never more than the buffer holds; its
    field number is below [2^61] and its wire type is one of the four the
    decoder knows. *)
Theorem ParseTag_bounds :
  forall (data : list byte) (tag : Tag) (n : Z),
    ParseTag data = Ok (tag, n) ->
    0 <= n <= len data /\ n <= 10
    /\ 0 <= fieldID tag < 2 ^ 61
    /\ In (typ tag) [Varint; B64; LengthDelim; B32].
Proof.
  intros data tag n H.
  pose proof (ParseTag_consumed _ _ _ H) as Hn.
  apply ParseTag_Ok in H. destruct H as (x & V & -> & Ht).
  split; [exact Hn | split; [| split]].
  - unfold DecodeVarint in V. change 0 with (7 * 0) in V at 1.
    apply DecodeVarint_loop_at_most in V; lia.
  - cbn [fieldID]. apply shiftr_3_range. eapply DecodeVarint_value. exact V.
  - cbn [In]. intuition auto.
Qed.

Lemma ParseTag_bounds_witness :
  0 <= 2 <= len [xa8; x01; x05] /\ 2 <= 10
  /\ 0 <= fieldID (mkTag 21 0) < 2 ^ 61
  /\ In (typ (mkTag 21 0)) [Varint; B64; LengthDelim; B32].
Proof.
  apply (ParseTag_bounds [xa8; x01; x05] (mkTag 21 0) 2). reflexivity.
Defined.

(** [ParseTag] has no error for a tag that is cut short or missing: when
    the varint reader fails, the result is the tag of field 0 with wire type
    [Varint], read from zero bytes. *)
Theorem ParseTag_truncated_is_field_zero :
  forall data : list byte,
    snd (DecodeVarint data) = 0 -> ParseTag data = Ok (mkTag 0 Varint, 0).
Proof.
  intros data H. unfold ParseTag.
  destruct (DecodeVarint data) as [x n] eqn:E. simpl in H. subst n.
  pose proof (DecodeVarint_none_consumed _ _ E) as X. subst x. reflexivity.
Qed.

Lemma ParseTag_truncated_is_field_zero_witness :
  ParseTag [] = Ok (mkTag 0 Varint, 0)
  /\ ParseTag [xff; x80] = Ok (mkTag 0 Varint, 0).
Proof.
  split; apply ParseTag_truncated_is_field_zero; reflexivity.
Defined.

(** ** One step of the loop *)

Lemma ParseProto_loop_step (fuel : nat) (data : list byte) (pos : Z)
      (msg : Message) :
  pos < len data ->
  ParseProto_loop (S fuel) data pos msg
  = match loop_body (ParseProto fuel) data pos msg with
    | Ok (msg', pos') => ParseProto_loop fuel data pos' msg'
    | Err e => Err e
    | Panic => Panic
    | OutOfFuel => OutOfFuel
    end.
Proof.
  intros H.
  change (ParseProto_loop (S fuel) data pos msg)
    with (if pos <? len data then
            match loop_body (ParseProto fuel) data pos msg with
            | Ok (msg', pos') => ParseProto_loop fuel data pos' msg'
            | Err e => Err e
            | Panic => Panic
            | OutOfFuel => OutOfFuel
            end
          else Ok (msg, pos)).
  apply Z.ltb_lt in H. rewrite H. reflexivity.
Qed.

(** ** Fixed-width fields *)

Lemma lor_shiftl_add (a b k : Z) :
  0 <= k -> 0 <= a < 2 ^ k -> Z.lor a (Z.shiftl b k) = a + b * 2 ^ k.
Proof.
  intros Hk Ha.
  assert (D : Z.land a (Z.shiftl b k) = 0).
  { apply Z.bits_inj'. intros i Hi.
    rewrite Z.land_spec, Z.bits_0.
    destruct (Z.lt_ge_cases i k) as [L | L].
    - rewrite (Z.shiftl_spec_low b k i L). apply andb_false_r.
    - replace (Z.testbit a i) with false; [reflexivity |].
      symmetry. rewrite <- (Z.mod_small a (2 ^ k)) by lia.
      apply Z.mod_pow2_bits_high. lia. }
  rewrite <- Z.lxor_lor by exact D.
  rewrite <- Z.add_nocarry_lxor by exact D.
  rewrite Z.shiftl_mul_pow2 by lia. reflexivity.
Qed.

Lemma DecodeFixed32_value (b0 b1 b2 b3 : byte) (rest : list byte) :
  DecodeFixed32 (b0 :: b1 :: b2 :: b3 :: rest)
  = Ok (b2z b0 + 2 ^ 8 * b2z b1 + 2 ^ 16 * b2z b2 + 2 ^ 24 * b2z b3).
Proof.
  pose proof (b2z_range b0). pose proof (b2z_range b1).
  pose proof (b2z_range b2). pose proof (b2z_range b3).
  unfold DecodeFixed32. f_equal.
  rewrite (lor_shiftl_add (b2z b0) (b2z b1) 8)
    by (change (2 ^ 8) with 256; lia).
  rewrite (lor_shiftl_add _ (b2z b2) 16)
    by (change (2 ^ 8) with 256; change (2 ^ 16) with 65536; lia).
  rewrite (lor_shiftl_add _ (b2z b3) 24)
    by (change (2 ^ 8) with 256; change (2 ^ 16) with 65536;
        change (2 ^ 24) with 16777216; lia).
  lia.
Qed.

Lemma DecodeFixed64_value (b0 b1 b2 b3 b4 b5 b6 b7 : byte)
      (rest : list byte) :
  DecodeFixed64 (b0 :: b1 :: b2 :: b3 :: b4 :: b5 :: b6 :: b7 :: rest)
  = Ok (b2z b0 + 2 ^ 8 * b2z b1 + 2 ^ 16 * b2z b2 + 2 ^ 24 * b2z b3
        + 2 ^ 32 * b2z b4 + 2 ^ 40 * b2z b5 + 2 ^ 48 * b2z b6
        + 2 ^ 56 * b2z b7).
Proof.
  pose proof (b2z_range b0). pose proof (b2z_range b1).
  pose proof (b2z_range b2). pose proof (b2z_range b3).
  pose proof (b2z_range b4). pose proof (b2z_range b5).
  pose proof (b2z_range b6). pose proof (b2z_range b7).
  unfold DecodeFixed64. f_equal.
  assert (P8 : 2 ^ 8 = 256) by reflexivity.
  assert (P16 : 2 ^ 16 = 65536) by reflexivity.
  assert (P24 : 2 ^ 24 = 16777216) by reflexivity.
  assert (P32 : 2 ^ 32 = 4294967296) by reflexivity.
  assert (P40 : 2 ^ 40 = 1099511627776) by reflexivity.
  assert (P48 : 2 ^ 48 = 281474976710656) by reflexivity.
  assert (P56 : 2 ^ 56 = 72057594037927936) by reflexivity.
  rewrite (lor_shiftl_add (b2z b0) (b2z b1) 8) by lia.
  rewrite (lor_shiftl_add _ (b2z b2) 16) by lia.
  rewrite (lor_shiftl_add _ (b2z b3) 24) by lia.
  rewrite (lor_shiftl_add _ (b2z b4) 32) by lia.
  rewrite (lor_shiftl_add _ (b2z b5) 40) by lia.
  rewrite (lor_shiftl_add _ (b2z b6) 48) by lia.
  rewrite (lor_shiftl_add _ (b2z b7) 56) by lia.
  lia.
Qed.





(** ** Fields that do not fit *)

(** A fixed-width field with too few bytes behind its tag (fewer than four
    for wire type 5, fewer than eight for wire type 1) ends the decode with
    the unexpected-EOF error, whatever was decoded before it. *)
Theorem truncated_fixed_field_fails :
  forall (fuel : nat) (data : list byte) (pos : Z) (msg : Message)
         (tag : Tag) (n : Z),
    0 <= pos < len data ->
    ParseTag (slice_from data pos) = Ok (tag, n) ->
    (typ tag = B32 /\ len data - (pos + n) < 4)
    \/ (typ tag = B64 /\ len data - (pos + n) < 8) ->
    ParseProto_loop (S fuel) data pos msg = Err UnexpectedEOF.
Proof.
  intros fuel data pos msg tag n Hpos T H.
  rewrite ParseProto_loop_step by lia.
  destruct H as [[Htyp Hs] | [Htyp Hs]].
  - rewrite (loop_body_fixed32_truncated _ data pos msg tag n);
      [reflexivity | lia | assumption | assumption | assumption].
  - rewrite (loop_body_fixed64_truncated _ data pos msg tag n);
      [reflexivity | lia | assumption | assumption | assumption].
Qed.

Lemma truncated_fixed_field_fails_witness :
  ParseProto_loop 3 [x08; x01; x0d; x01; x02; x03] 2
    [(1, [mkField (Some 1) None None None])] = Err UnexpectedEOF
  /\ ParseProto_loop 1 [x09; x01; x02; x03; x04; x05; x06; x07] 0 []
     = Err UnexpectedEOF.
Proof.
  split.
  - apply (truncated_fixed_field_fails 2 [x08; x01; x0d; x01; x02; x03] 2
             [(1, [mkField (Some 1) None None None])] (mkTag 1 5) 1).
    + split; [discriminate | reflexivity].
    + reflexivity.
    + left. split; reflexivity.
  - apply (truncated_fixed_field_fails 0
             [x09; x01; x02; x03; x04; x05; x06; x07] 0 [] (mkTag 1 1) 1).
    + split; [apply Z.le_refl | reflexivity].
    + reflexivity.
    + right. split; reflexivity.
Defined.

(** A length-delimited field that declares more bytes than are left ends
    the decode with the not-enough-bytes error, which carries the declared
    length and the number of bytes left behind the length. *)
Theorem length_overrun_fails :
  forall (fuel : nat) (data : list byte) (pos : Z) (msg : Message)
         (tag : Tag) (n x n2 : Z),
    0 <= pos < len data -> len data < two63 ->
    ParseTag (slice_from data pos) = Ok (tag, n) -> typ tag = LengthDelim ->
    DecodeVarint (slice_from data (pos + n)) = (x, n2) ->
    len data - (pos + n + n2) < x -> pos + n + n2 + x < two63 ->
    ParseProto_loop (S fuel) data pos msg
    = Err (NotEnoughBytes x (len data - (pos + n + n2))).
Proof.
  intros fuel data pos msg tag n x n2 Hpos Hlen T Htyp V Hover Hsmall.
  rewrite ParseProto_loop_step by lia.
  rewrite (loop_body_length_overrun _ data pos msg tag n x n2);
    [reflexivity | lia | assumption..].
Qed.

Lemma length_overrun_fails_witness :
  ParseProto_loop 1 [x0a; x05; x68; x69] 0 [] = Err (NotEnoughBytes 5 2).
Proof.
  apply (length_overrun_fails 0 [x0a; x05; x68; x69] 0 [] (mkTag 1 2) 1 5 1).
  - split; [apply Z.le_refl | reflexivity].
  - reflexivity.
  - reflexivity.
  - reflexivity.
  - reflexivity.
  - reflexivity.
  - reflexivity.
Defined.

Lemma to_int_signed (y : Z) : - two63 <= y < two63 -> to_int y = y.
Proof.
  unfold to_int, two63, two64. intros H.
  destruct (Z.neg_nonneg_cases y) as [N | N].
  - replace (y mod 2 ^ 64) with (y + 2 ^ 64).
    + destruct (Z.ltb_spec (y + 2 ^ 64) (2 ^ 63)); lia.
    + apply (Z.mod_unique_pos _ _ (-1)); lia.
  - rewrite Z.mod_small by lia.
    destruct (Z.ltb_spec y (2 ^ 63)); lia.
Qed.

(** A declared length that, added to the cursor, does not fit the 64-bit
    [int] is not reported as an error: the converted end of the field lies
    before its start, the length check lets it through, and the slice
    expression stops the program with a bounds panic. *)
Theorem length_beyond_int_panics :
  forall (fuel : nat) (data : list byte) (pos : Z) (msg : Message)
         (tag : Tag) (n x n2 : Z),
    0 <= pos < len data -> len data < two63 ->
    ParseTag (slice_from data pos) = Ok (tag, n) -> typ tag = LengthDelim ->
    DecodeVarint (slice_from data (pos + n)) = (x, n2) ->
    two63 <= pos + n + n2 + x ->
    ParseProto_loop (S fuel) data pos msg = Panic.
Proof.
  intros fuel data pos msg tag n x n2 Hpos Hlen T Htyp V Hbig.
  pose proof (ParseTag_consumed _ _ _ T) as Hn.
  rewrite len_slice_from in Hn by lia.
  pose proof (DecodeVarint_consumed _ _ _ V) as Hn2.
  rewrite len_slice_from in Hn2 by lia.
  pose proof (DecodeVarint_value _ _ _ V) as Hx.
  rewrite ParseProto_loop_step by lia.
  unfold loop_body. rewrite T, Htyp.
  change (LengthDelim =? Varint) with false.
  change (LengthDelim =? B32) with false.
  change (LengthDelim =? B64) with false.
  change (LengthDelim =? LengthDelim) with true.
  cbv iota. rewrite V.
  assert (E : to_int (pos + n + n2 + to_int x) = pos + n + n2 + x - two64).
  { assert (T64 : two64 = 2 * two63) by reflexivity.
    destruct (Z.lt_ge_cases x two63) as [S | S].
    - rewrite (to_int_small x) by lia.
      unfold to_int.
      rewrite Z.mod_small by lia.
      destruct (Z.ltb_spec (pos + n + n2 + x) two63); lia.
    - replace (to_int x) with (x - two64).
      + rewrite to_int_signed by lia. lia.
      + symmetry. unfold to_int. rewrite Z.mod_small by lia.
        destruct (Z.ltb_spec x two63); lia. }
  rewrite E.
  assert (T64 : two64 = 2 * two63) by reflexivity.
  replace (pos + n + n2 + x - two64 >? len data) with false
    by (symmetry; rewrite Z.gtb_ltb; apply Z.ltb_ge; lia).
  replace (pos + n + n2 + x - two64 <? pos + n + n2) with true
    by (symmetry; apply Z.ltb_lt; lia).
  reflexivity.
Qed.

Lemma length_beyond_int_panics_witness :
  ParseProto_loop 1
    [x0a; xff; xff; xff; xff; xff; xff; xff; xff; x7f; x68] 0 [] = Panic.
Proof.
  apply (length_beyond_int_panics 0
           [x0a; xff; xff; xff; xff; xff; xff; xff; xff; x7f; x68] 0 []
           (mkTag 1 2) 1 9223372036854775807 9).
  - split; [apply Z.le_refl | reflexivity].
  - reflexivity.
  - reflexivity.
  - reflexivity.
  - reflexivity.
  - discriminate.
Defined.

(** ** Buffers without continuation bytes *)

Lemma no_continuation_varint_value (buf : list byte) (x n : Z) :
  no_continuation buf -> DecodeVarint buf = (x, n) ->
  0 <= x < 128 /\ 0 <= n <= 1.
Proof.
  intros H V. destruct buf as [| b rest].
  - inversion V; subst. lia.
  - inversion H; subst.
    rewrite DecodeVarint_one_byte in V by assumption.
    inversion V; subst. pose proof (b2z_range b). lia.
Qed.

Lemma no_continuation_slice_from (data : list byte) (lo : Z) :
  no_continuation data -> no_continuation (slice_from data lo).
Proof.
  unfold no_continuation, slice_from. apply Forall_skipn.
Qed.

(** One iteration on such a buffer: it moves the cursor forward or returns
    an error, and it panics or runs out of fuel only where the recursive
    decode of a content behind the cursor does. *)
Lemma loop_body_no_continuation (sub : list byte -> outcome (Message * Z))
      (data : list byte) (pos : Z) (msg : Message) :
  no_continuation data -> 0 <= pos < len data -> len data < 2 ^ 62 ->
  match loop_body sub data pos msg with
  | Ok (_, pos') => pos < pos' <= len data
  | Err _ => True
  | Panic =>
      exists lo hi,
        pos < lo /\ lo <= hi <= len data /\ sub (slice data lo hi) = Panic
  | OutOfFuel =>
      exists lo hi,
        pos < lo /\ lo <= hi <= len data /\ sub (slice data lo hi) = OutOfFuel
  end.
Proof.
  intros Hd Hpos Hlen.
  destruct (no_continuation_varint data pos Hd Hpos) as (x0 & V0).
  unfold loop_body, ParseTag. rewrite V0.
  destruct (_ || _); [| exact I].
  cbn [typ fieldID].
  assert (T62 : 2 ^ 62 + 128 <= two63) by (intros C; discriminate C).
  assert (P62 : 0 < 2 ^ 62) by reflexivity.
  destruct (Z.land x0 7 =? Varint).
  { destruct (DecodeVarint (slice_from data (pos + 1))) as [x n2] eqn:V.
    apply DecodeVarint_consumed in V. rewrite len_slice_from in V by lia.
    lia. }
  destruct (Z.land x0 7 =? B32).
  { pose proof (DecodeFixed32_not_stuck (slice_from data (pos + 1)))
      as [N1 N2].
    destruct (DecodeFixed32 (slice_from data (pos + 1))) eqn:F;
      try exact I; try contradiction.
    apply DecodeFixed32_Ok in F. rewrite len_slice_from in F by lia. lia. }
  destruct (Z.land x0 7 =? B64).
  { pose proof (DecodeFixed64_not_stuck (slice_from data (pos + 1)))
      as [N1 N2].
    destruct (DecodeFixed64 (slice_from data (pos + 1))) eqn:F;
      try exact I; try contradiction.
    apply DecodeFixed64_Ok in F. rewrite len_slice_from in F by lia. lia. }
  destruct (Z.land x0 7 =? LengthDelim); [| lia].
  destruct (DecodeVarint (slice_from data (pos + 1))) as [x n2] eqn:V.
  pose proof (no_continuation_varint_value _ _ _
                (no_continuation_slice_from data (pos + 1) Hd) V) as [Hx Hn2].
  apply DecodeVarint_consumed in V. rewrite len_slice_from in V by lia.
  rewrite (to_int_small x) by lia.
  rewrite (to_int_small (pos + 1 + n2 + x)) by lia.
  destruct (Z.gtb_spec (pos + 1 + n2 + x) (len data)) as [G | G];
    [exact I |].
  replace (pos + 1 + n2 + x <? pos + 1 + n2) with false
    by (symmetry; apply Z.ltb_ge; lia).
  match goal with
  | |- context [sub ?c] => destruct (sub c) as [[sm k] | e | |] eqn:S
  end.
  - lia.
  - destruct (utf8_Valid _); lia.
  - exists (pos + 1 + n2), (pos + 1 + n2 + x). repeat split; try lia. exact S.
  - exists (pos + 1 + n2), (pos + 1 + n2 + x). repeat split; try lia. exact S.
Qed.

Lemma ParseProto_loop_no_continuation (fuel : nat) :
  forall (data : list byte) (pos : Z) (msg : Message),
    no_continuation data -> 0 <= pos <= len data -> len data < 2 ^ 62 ->
    len data - pos < Z.of_nat fuel ->
    ParseProto_loop fuel data pos msg <> OutOfFuel
    /\ ParseProto_loop fuel data pos msg <> Panic.
Proof.
  induction fuel as [| fuel IH]; intros data pos msg Hd Hpos Hlen Hf; [lia |].
  simpl. destruct (pos <? len data) eqn:L; [| split; discriminate].
  apply Z.ltb_lt in L.
  pose proof (loop_body_no_continuation
                (fun content => ParseProto_loop fuel content 0 [])
                data pos msg Hd (conj (proj1 Hpos) L) Hlen) as B.
  destruct (loop_body _ data pos msg) as [[msg1 pos1] | e | |] eqn:E.
  - apply IH; [exact Hd | lia | exact Hlen | lia].
  - split; discriminate.
  - exfalso. destruct B as (lo & hi & Hlo & Hhi & S).
    revert S. apply IH.
    + apply no_continuation_slice. exact Hd.
    + pose proof (len_nonneg (slice data lo hi)). lia.
    + rewrite len_slice by lia. lia.
    + rewrite len_slice by lia. lia.
  - exfalso. destruct B as (lo & hi & Hlo & Hhi & S).
    revert S. apply IH.
    + apply no_continuation_slice. exact Hd.
    + pose proof (len_nonneg (slice data lo hi)). lia.
    + rewrite len_slice by lia. lia.
    + rewrite len_slice by lia. lia.
Qed.

(** On a buffer in which no byte has the bit [0x80] (and as long as a Go
    slice can be) the decode always comes to an end, within a fuel of the
    length of the buffer plus one: it returns the message, having read the
    whole buffer, or one of its errors; it neither panics nor loops. *)
Theorem ParseProto_total_without_continuation :
  forall data : list byte,
    no_continuation data -> len data < 2 ^ 62 ->
    (exists m, ParseProto (S (List.length data)) data = Ok (m, len data))
    \/ (exists e, ParseProto (S (List.length data)) data = Err e).
Proof.
  intros data Hd Hlen.
  destruct (ParseProto_loop_no_continuation (S (List.length data)) data 0 []
              Hd) as [N1 N2].
  - pose proof (len_nonneg data). lia.
  - exact Hlen.
  - unfold len. lia.
  - fold (ParseProto (S (List.length data)) data) in N1, N2.
    destruct (ParseProto (S (List.length data)) data) as [[m n] | e | |] eqn:E;
      try contradiction.
    + left. exists m. apply ParseProto_end in E. subst n. reflexivity.
    + right. exists e. reflexivity.
Qed.

Lemma ParseProto_total_without_continuation_witness :
  (exists m, ParseProto 5 [x0a; x02; x68; x69] = Ok (m, 4))
  \/ (exists e, ParseProto 5 [x0a; x02; x68; x69] = Err e).
Proof.
  apply (ParseProto_total_without_continuation [x0a; x02; x68; x69]).
  - repeat constructor.
  - reflexivity.
Defined.

(** ** What decoded fields hold *)

Lemma DecodeFixed32_range (buf : list byte) (x : Z) :
  DecodeFixed32 buf = Ok x -> 0 <= x < 2 ^ 32.
Proof.
  destruct buf as [| b0 [| b1 [| b2 [| b3 rest]]]]; try discriminate.
  rewrite DecodeFixed32_value. intros H.
  assert (E : x = b2z b0 + 2 ^ 8 * b2z b1 + 2 ^ 16 * b2z b2
                  + 2 ^ 24 * b2z b3) by congruence.
  rewrite E. clear H E.
  pose proof (b2z_range b0). pose proof (b2z_range b1).
  pose proof (b2z_range b2). pose proof (b2z_range b3).
  change (2 ^ 8) with 256. change (2 ^ 16) with 65536.
  change (2 ^ 24) with 16777216. change (2 ^ 32) with 4294967296. lia.
Qed.

Lemma DecodeFixed64_range (buf : list byte) (x : Z) :
  DecodeFixed64 buf = Ok x -> 0 <= x < two64.
Proof.
  destruct buf as [| b0 [| b1 [| b2 [| b3 [| b4 [| b5 [| b6 [| b7 rest]]]]]]]];
    try discriminate.
  rewrite DecodeFixed64_value. intros H.
  assert (E : x = b2z b0 + 2 ^ 8 * b2z b1 + 2 ^ 16 * b2z b2
                  + 2 ^ 24 * b2z b3 + 2 ^ 32 * b2z b4 + 2 ^ 40 * b2z b5
                  + 2 ^ 48 * b2z b6 + 2 ^ 56 * b2z b7) by congruence.
  rewrite E. clear H E.
  pose proof (b2z_range b0). pose proof (b2z_range b1).
  pose proof (b2z_range b2). pose proof (b2z_range b3).
  pose proof (b2z_range b4). pose proof (b2z_range b5).
  pose proof (b2z_range b6). pose proof (b2z_range b7).
  unfold two64.
  change (2 ^ 8) with 256. change (2 ^ 16) with 65536.
  change (2 ^ 24) with 16777216. change (2 ^ 32) with 4294967296.
  change (2 ^ 40) with 1099511627776. change (2 ^ 48) with 281474976710656.
  change (2 ^ 56) with 72057594037927936.
  change (2 ^ 64) with 18446744073709551616. lia.
Qed.

Lemma store_sound (m : Message) (id : Z) (fields : list Field) :
  sound_message m -> 0 <= id < 2 ^ 61 -> Forall sound_field fields ->
  sound_message (store m id fields).
Proof.
  unfold sound_message. intros Hm Hid Hf.
  induction m as [| [k old] rest IH]; simpl.
  - constructor; [split; assumption | constructor].
  - inversion Hm as [| e l [Hk Hold] Hrest]; subst.
    destruct (k =? id).
    + constructor; [split; assumption | exact Hrest].
    + constructor; [split; assumption | apply IH; exact Hrest].
Qed.

Lemma lookup_sound (m : Message) (id : Z) (fields : list Field) :
  sound_message m -> lookup m id = Some fields -> Forall sound_field fields.
Proof.
  unfold sound_message. intros Hm.
  induction m as [| [k old] rest IH]; simpl; [discriminate |].
  inversion Hm as [| e l [Hk Hold] Hrest]; subst.
  destruct (k =? id).
  - intros H; inversion H; subst. exact Hold.
  - apply IH. exact Hrest.
Qed.

Lemma addField_sound (m : Message) (id : Z) (f : Field) :
  sound_message m -> 0 <= id < 2 ^ 61 -> sound_field f ->
  sound_message (addField m id f).
Proof.
  intros Hm Hid Hf. unfold addField.
  destruct (lookup m id) as [fields |] eqn:L.
  - apply store_sound; [exact Hm | exact Hid |].
    apply Forall_app. split; [eapply lookup_sound; eauto |].
    constructor; [exact Hf | constructor].
  - apply store_sound; [exact Hm | exact Hid |].
    constructor; [exact Hf | constructor].
Qed.

Lemma loop_body_adds_sound (fuel : nat) (data : list byte) (pos : Z)
      (msg msg' : Message) (pos' : Z) :
  (forall c sm k, ParseProto fuel c = Ok (sm, k) -> sound_message sm) ->
  loop_body (ParseProto fuel) data pos msg = Ok (msg', pos') ->
  exists id f,
    msg' = addField msg id f /\ 0 <= id < 2 ^ 61 /\ sound_field f.
Proof.
  intros Hsub. unfold loop_body.
  destruct (ParseTag (slice_from data pos)) as [[tag n] | e | |] eqn:T;
    try discriminate.
  apply ParseTag_Ok in T. destruct T as (x0 & V0 & -> & Htyp).
  cbn [typ fieldID] in *.
  assert (Hid : 0 <= Z.shiftr x0 3 < 2 ^ 61)
    by (apply shiftr_3_range; eapply DecodeVarint_value; exact V0).
  destruct (Z.land x0 7 =? Varint) eqn:E0.
  { destruct (DecodeVarint (slice_from data (pos + n))) as [x n2] eqn:V.
    intros H; inversion H; subst.
    eexists; eexists; split; [reflexivity | split; [exact Hid |]].
    constructor. eapply DecodeVarint_value. exact V. }
  destruct (Z.land x0 7 =? B32) eqn:E5.
  { destruct (DecodeFixed32 (slice_from data (pos + n))) as [x | e | |] eqn:F;
      try discriminate.
    intros H; inversion H; subst.
    eexists; eexists; split; [reflexivity | split; [exact Hid |]].
    constructor. apply DecodeFixed32_range in F.
    unfold two64. assert (2 ^ 32 < 2 ^ 64) by reflexivity. lia. }
  destruct (Z.land x0 7 =? B64) eqn:E1.
  { destruct (DecodeFixed64 (slice_from data (pos + n))) as [x | e | |] eqn:F;
      try discriminate.
    intros H; inversion H; subst.
    eexists; eexists; split; [reflexivity | split; [exact Hid |]].
    constructor. eapply DecodeFixed64_range. exact F. }
  destruct (Z.land x0 7 =? LengthDelim) eqn:E2.
  { destruct (DecodeVarint (slice_from data (pos + n))) as [x n2].
    destruct (_ >? _); try discriminate.
    destruct (_ <? _); try discriminate.
    match goal with
    | |- context [ParseProto fuel ?c] =>
        destruct (ParseProto fuel c) as [[sm k] | e | |] eqn:S
    end; try discriminate.
    - intros H; inversion H; subst.
      eexists; eexists; split; [reflexivity | split; [exact Hid |]].
      constructor.
      + pose proof (ParseProto_end _ _ _ _ S) as K. subst k. eauto.
      + apply (Hsub _ _ _ S).
    - destruct (utf8_Valid _) eqn:U; intros H; inversion H; subst;
        (eexists; eexists; split; [reflexivity | split; [exact Hid |]]);
        constructor; eauto. }
  apply Z.eqb_neq in E0, E5, E1, E2. intuition congruence.
Qed.

Lemma ParseProto_loop_sound (fuel : nat) :
  forall (data : list byte) (pos : Z) (msg msg' : Message) (pos' : Z),
    sound_message msg ->
    ParseProto_loop fuel data pos msg = Ok (msg', pos') ->
    sound_message msg'.
Proof.
  induction fuel as [| fuel IH]; intros data pos msg msg' pos' Hm H;
    simpl in H; [discriminate |].
  destruct (pos <? len data).
  - destruct (loop_body _ data pos msg) as [[msg1 pos1] | e | |] eqn:E;
      try discriminate.
    apply (loop_body_adds_sound fuel) in E.
    + destruct E as (id & f & -> & Hid & Hf).
      eapply IH; [| exact H]. apply addField_sound; assumption.
    + intros c sm k Hc. unfold ParseProto in Hc.
      eapply IH; [| exact Hc]. constructor.
  - inversion H; subst. exact Hm.
Qed.

Lemma ParseProto_sound (fuel : nat) (data : list byte) (m : Message) (n : Z) :
  ParseProto fuel data = Ok (m, n) -> sound_message m.
Proof.
  unfold ParseProto. intros H.
  eapply ParseProto_loop_sound; [| exact H]. constructor.
Qed.

Lemma sound_message_In (m : Message) (id : Z) (fields : list Field) :
  sound_message m -> In (id, fields) m ->
  0 <= id < 2 ^ 61 /\ Forall sound_field fields.
Proof.
  unfold sound_message. intros Hm Hi.
  rewrite Forall_forall in Hm. apply (Hm _ Hi).
Qed.

Lemma sound_message_within (m : Message) (f : Field) :
  within m f -> sound_message m -> sound_field f.
Proof.
  induction 1 as [m id fields f Hi Hf | m id fields g sub f Hi Hg Hs Hw IH];
    intros Hm.
  - destruct (sound_message_In _ _ _ Hm Hi) as [_ Hall].
    rewrite Forall_forall in Hall. apply Hall. exact Hf.
  - destruct (sound_message_In _ _ _ Hm Hi) as [_ Hall].
    rewrite Forall_forall in Hall. specialize (Hall _ Hg).
    apply IH. inversion Hall; subst; simpl in Hs; try discriminate.
    inversion Hs; subst. assumption.
Qed.

Lemma ParseProto_empty_no_error (fuel : nat) (e : error) :
  ParseProto fuel [] <> Err e.
Proof. destruct fuel; discriminate. Qed.

(** In a decoded message every field number, at the top level and in every
    nested message, is below [2^61], and every number stored in a field is
    a [uint64]. *)
Theorem decoded_numbers_in_range :
  forall (fuel : nat) (data : list byte) (m : Message) (n : Z),
    ParseProto fuel data = Ok (m, n) ->
    (forall id fields, In (id, fields) m -> 0 <= id < 2 ^ 61)
    /\ (forall f sub id fields,
           within m f -> message f = Some sub -> In (id, fields) sub ->
           0 <= id < 2 ^ 61)
    /\ (forall f x, within m f -> numeric f = Some x -> 0 <= x < two64).
Proof.
  intros fuel data m n H. apply ParseProto_sound in H.
  split; [| split].
  - intros id fields Hi. apply (sound_message_In _ _ _ H Hi).
  - intros f sub id fields Hw Hs Hi.
    pose proof (sound_message_within _ _ Hw H) as Hf.
    inversion Hf; subst; simpl in Hs; try discriminate.
    inversion Hs; subst.
    match goal with
    | Hall : Forall _ sub |- _ =>
        rewrite Forall_forall in Hall; apply (Hall _ Hi)
    end.
  - intros f x Hw Hx.
    pose proof (sound_message_within _ _ Hw H) as Hf.
    inversion Hf; subst; simpl in Hx; try discriminate.
    inversion Hx; subst. assumption.
Qed.

Lemma decoded_numbers_in_range_witness :
  0 <= 2 < 2 ^ 61 /\ 0 <= 5 < two64.
Proof.
  destruct (decoded_numbers_in_range 3 [x12; x02; x08; x05]
              [(2, [mkField None None
                      (Some [(1, [mkField (Some 5) None None None])]) None])]
              4 eq_refl) as (Hk & _ & Hx).
  split.
  - apply (Hk 2 [mkField None None
                   (Some [(1, [mkField (Some 5) None None None])]) None]).
    left. reflexivity.
  - apply (Hx (mkField (Some 5) None None None) 5); [| reflexivity].
    eapply within_nested.
    + left. reflexivity.
    + left. reflexivity.
    + reflexivity.
    + eapply within_here; [left; reflexivity | left; reflexivity].
Defined.

(** In a decoded message, at every depth: a text field holds valid UTF-8
    that is not empty and that the decoder rejects as a message; a bytes
    field holds bytes that are not valid UTF-8 (so one of them has the bit
    [0x80]) and that the decoder rejects as a message; a nested message is
    the decode of some buffer, read to its end. *)
Theorem decoded_payloads_classified :
  forall (fuel : nat) (data : list byte) (m : Message) (n : Z) (f : Field),
    ParseProto fuel data = Ok (m, n) -> within m f ->
    (forall s, string_ f = Some s ->
               utf8_Valid s = true /\ s <> []
               /\ exists fuel' e, ParseProto fuel' s = Err e)
    /\ (forall b, bytes f = Some b ->
                  utf8_Valid b = false /\ ~ no_continuation b
                  /\ exists fuel' e, ParseProto fuel' b = Err e)
    /\ (forall sub, message f = Some sub ->
                    exists fuel' c, ParseProto fuel' c = Ok (sub, len c)).
Proof.
  intros fuel data m n f H Hw. apply ParseProto_sound in H.
  pose proof (sound_message_within _ _ Hw H) as Hf.
  split; [| split].
  - intros s Hs. inversion Hf; subst; simpl in Hs; try discriminate.
    inversion Hs; subst. split; [assumption | split; [| assumption]].
    intros ->.
    match goal with
    | He : exists _ _, ParseProto _ [] = Err _ |- _ =>
        destruct He as (fuel' & e & He);
        exact (ParseProto_empty_no_error _ _ He)
    end.
  - intros b Hb. inversion Hf; subst; simpl in Hb; try discriminate.
    inversion Hb; subst. split; [assumption | split; [| assumption]].
    intros Hascii.
    assert (V : utf8_Valid b = true).
    { clear - Hascii. induction Hascii as [| c l Hc Hl IH]; [reflexivity |].
      cbn [utf8_Valid]. apply Z.ltb_lt in Hc. rewrite Hc. exact IH. }
    congruence.
  - intros sub Hs. inversion Hf; subst; simpl in Hs; try discriminate.
    inversion Hs; subst. assumption.
Qed.

Lemma decoded_payloads_classified_witness :
  (utf8_Valid [x41; x42] = true /\ [x41; x42] <> []
   /\ exists fuel' e, ParseProto fuel' [x41; x42] = Err e)
  /\ (utf8_Valid [xff; x03] = false /\ ~ no_continuation [xff; x03]
      /\ exists fuel' e, ParseProto fuel' [xff; x03] = Err e).
Proof.
  split.
  - assert (W : within [(1, [mkField None (Some [x41; x42]) None None])]
                       (mkField None (Some [x41; x42]) None None))
      by (eapply within_here; [left; reflexivity | left; reflexivity]).
    apply (proj1 (decoded_payloads_classified 2 [x0a; x02; x41; x42]
                    [(1, [mkField None (Some [x41; x42]) None None])] 4
                    (mkField None (Some [x41; x42]) None None) eq_refl W)
                 [x41; x42] eq_refl).
  - assert (W : within [(1, [mkField None None None (Some [xff; x03])])]
                       (mkField None None None (Some [xff; x03])))
      by (eapply within_here; [left; reflexivity | left; reflexivity]).
    apply (proj1 (proj2 (decoded_payloads_classified 2 [x0a; x02; xff; x03]
                    [(1, [mkField None None None (Some [xff; x03])])] 4
                    (mkField None None None (Some [xff; x03])) eq_refl W))
                 [xff; x03] eq_refl).
Defined.

(** ** The program *)

Local Open Scope string_scope.

(** The two errors of [ParseGrpc] never reach the user: on an input shorter
    than the five bytes of a header, the empty input among them, and on an
    input whose payload is shorter than its header says, [main] writes
    nothing and stops in the panic of [Render] on the nil message. *)
Theorem main_panics_on_bad_frame :
  forall (range : list (Z * list string) -> list (Z * list string))
         (fuel : nat) (stdin : list byte),
    (len stdin < 5 \/ len stdin - 5 < frame_size stdin)%Z ->
    main range fuel stdin = Panic.
Proof.
  intros range fuel stdin H. unfold main.
  destruct (Z.lt_ge_cases (len stdin) 5) as [S | S].
  - rewrite ParseGrpc_missing_header by exact S. reflexivity.
  - destruct H as [H | H]; [lia |].
    rewrite ParseGrpc_incomplete_frame by assumption. reflexivity.
Qed.

Lemma main_panics_on_bad_frame_witness :
  main (fun entries => entries) 5 [] = Panic
  /\ main (fun entries => entries) 5 [x00; x00; x00; x00; x02; x08] = Panic.
Proof.
  split.
  - apply main_panics_on_bad_frame. left. reflexivity.
  - apply main_panics_on_bad_frame. right. reflexivity.
Defined.

(** On a frame whose payload decodes, [main] writes the rendering of the
    payload's message and a newline; the bytes behind the payload have no
    effect on the output. *)
Theorem main_prints_the_payload :
  forall (range : list (Z * list string) -> list (Z * list string))
         (fuel : nat) (header payload trailing : list byte)
         (m : Message) (n : Z),
    len header = 5%Z -> frame_size header = len payload ->
    ParseProto fuel payload = Ok (m, n) ->
    main range fuel (header ++ payload ++ trailing)
    = Ok (Render range m ++ newline).
Proof.
  intros range fuel header payload trailing m n Hh Hs Hp. unfold main.
  rewrite ParseGrpc_frame by assumption. rewrite Hp. reflexivity.
Qed.

Lemma main_prints_the_payload_witness :
  main (fun entries => entries) 3
       ([x00; x00; x00; x00; x04] ++ [x38; x01; x38; x02] ++ [xff])
  = Ok ("{" ++ quoted "7" ++ ":[1,2]}" ++ newline).
Proof.
  apply (main_prints_the_payload (fun entries => entries) 3
           [x00; x00; x00; x00; x04] [x38; x01; x38; x02] [xff]
           [(7%Z, [mkField (Some 1%Z) None None None;
                   mkField (Some 2%Z) None None None])] 4%Z);
    reflexivity.
Defined.

(** ** The errors of the decoder *)

Local Open Scope Z_scope.

Lemma land_7_range (x : Z) : 0 <= Z.land x 7 < 8.
Proof.
  change 7 with (Z.ones 3). rewrite Z.land_ones by lia.
  change (2 ^ 3) with 8. apply Z.mod_pos_bound. lia.
Qed.

Lemma ParseTag_Err (data : list byte) (e : error) :
  ParseTag data = Err e ->
  exists t, e = InvalidFieldType t /\ In t [3; 4; 6; 7].
Proof.
  unfold ParseTag. destruct (DecodeVarint data) as [x n].
  pose proof (land_7_range x) as R.
  destruct ((Z.land x 7 =? Varint) || (Z.land x 7 =? B64)
            || (Z.land x 7 =? LengthDelim) || (Z.land x 7 =? B32)) eqn:T;
    [discriminate |].
  intros H. inversion H; subst. exists (Z.land x 7). split; [reflexivity |].
  repeat (apply orb_false_iff in T; destruct T as [T ?]).
  repeat match goal with
         | Hn : (_ =? _) = false |- _ => apply Z.eqb_neq in Hn
         end.
  unfold Varint, B64, LengthDelim, B32 in *. cbn [In]. lia.
Qed.

Lemma loop_body_Err (sub : list byte -> outcome (Message * Z))
      (data : list byte) (pos : Z) (msg : Message) (e : error) :
  0 <= pos <= len data ->
  loop_body sub data pos msg = Err e ->
  (exists t, e = InvalidFieldType t /\ In t [3; 4; 6; 7])
  \/ e = UnexpectedEOF
  \/ (exists x found,
         e = NotEnoughBytes x found
         /\ 0 <= x < two64 /\ 0 <= found <= len data).
Proof.
  intros Hpos. unfold loop_body.
  destruct (ParseTag (slice_from data pos)) as [[tag n] | e0 | |] eqn:T;
    try discriminate.
  - pose proof (ParseTag_consumed _ _ _ T) as Hn.
    rewrite len_slice_from in Hn by lia.
    destruct (typ tag =? Varint).
    { destruct (DecodeVarint (slice_from data (pos + n))); discriminate. }
    destruct (typ tag =? B32).
    { destruct (DecodeFixed32 (slice_from data (pos + n))) as [x | e1 | |] eqn:F;
        try discriminate.
      destruct (slice_from data (pos + n)) as [| b0 [| b1 [| b2 [| b3 r]]]];
        simpl in F; inversion F; subst;
        intros H; inversion H; subst; auto. }
    destruct (typ tag =? B64).
    { destruct (DecodeFixed64 (slice_from data (pos + n))) as [x | e1 | |] eqn:F;
        try discriminate.
      destruct (slice_from data (pos + n))
        as [| b0 [| b1 [| b2 [| b3 [| b4 [| b5 [| b6 [| b7 r]]]]]]]];
        simpl in F; inversion F; subst;
        intros H; inversion H; subst; auto. }
    destruct (typ tag =? LengthDelim); [| discriminate].
    destruct (DecodeVarint (slice_from data (pos + n))) as [x n2] eqn:V.
    pose proof (DecodeVarint_value _ _ _ V) as Hx.
    apply DecodeVarint_consumed in V. rewrite len_slice_from in V by lia.
    destruct (_ >? _).
    + intros H; inversion H; subst. right. right.
      exists x, (len data - (pos + n + n2)).
      split; [reflexivity | split; [exact Hx | lia]].
    + destruct (_ <? _); try discriminate.
      match goal with
      | |- context [sub ?c] => destruct (sub c) as [[sm k] | e1 | |]
      end; try discriminate.
      destruct (utf8_Valid _); discriminate.
  - intros H; inversion H; subst. left. apply (ParseTag_Err _ _ T).
Qed.

Lemma ParseProto_loop_Err (fuel : nat) :
  forall (data : list byte) (pos : Z) (msg : Message) (e : error),
    0 <= pos <= len data ->
    ParseProto_loop fuel data pos msg = Err e ->
    (exists t, e = InvalidFieldType t /\ In t [3; 4; 6; 7])
    \/ e = UnexpectedEOF
    \/ (exists x found,
           e = NotEnoughBytes x found
           /\ 0 <= x < two64 /\ 0 <= found <= len data).
Proof.
  induction fuel as [| fuel IH]; intros data pos msg e Hpos H;
    simpl in H; [discriminate |].
  destruct (pos <? len data); [| discriminate].
  destruct (loop_body _ data pos msg) as [[msg1 pos1] | e1 | |] eqn:E;
    try discriminate.
  - apply loop_body_cursor in E; [| exact Hpos].
    eapply IH; [| exact H]. lia.
  - inversion H; subst. eapply loop_body_Err; eauto.
Qed.

(** An error of an iteration is decided before the recursive decode is
    called: the iteration returns it whatever the recursive decoder is. *)
Lemma loop_body_Err_any_sub (sub sub' : list byte -> outcome (Message * Z))
      (data : list byte) (pos : Z) (msg : Message) (e : error) :
  loop_body sub data pos msg = Err e -> loop_body sub' data pos msg = Err e.
Proof.
  unfold loop_body.
  destruct (ParseTag (slice_from data pos)) as [[tag n] | e0 | |]; auto.
  destruct (typ tag =? Varint); auto.
  destruct (typ tag =? B32); auto.
  destruct (typ tag =? B64); auto.
  destruct (typ tag =? LengthDelim); auto.
  destruct (DecodeVarint (slice_from data (pos + n))) as [x n2].
  destruct (_ >? _); auto.
  destruct (_ <? _); auto.
  match goal with
  | |- context [sub ?c] => destruct (sub c) as [[sm k] | e1 | |]
  end; try discriminate.
  destruct (utf8_Valid _); discriminate.
Qed.

Lemma ParseProto_loop_Err_origin (fuel : nat) :
  forall (data : list byte) (pos : Z) (msg : Message) (e : error),
    0 <= pos <= len data -> reached data pos msg ->
    ParseProto_loop fuel data pos msg = Err e ->
    exists pos' msg',
      reached data pos' msg' /\ 0 <= pos' < len data
      /\ forall sub, loop_body sub data pos' msg' = Err e.
Proof.
  induction fuel as [| fuel IH]; intros data pos msg e Hpos Hr H;
    simpl in H; [discriminate |].
  destruct (pos <? len data) eqn:L; [| discriminate].
  apply Z.ltb_lt in L.
  destruct (loop_body _ data pos msg) as [[msg1 pos1] | e1 | |] eqn:E;
    try discriminate.
  - assert (Hr1 : reached data pos1 msg1).
    { eapply reached_step; [exact Hr | exact L |]. exists fuel. exact E. }
    apply loop_body_cursor in E; [| exact Hpos].
    apply (IH data pos1 msg1 e); [lia | exact Hr1 | exact H].
  - inversion H; subst. exists pos, msg.
    split; [exact Hr | split; [lia |]].
    intros sub. eapply loop_body_Err_any_sub. exact E.
Qed.

(** The errors of [ParseProto] are of three kinds: an invalid field type,
    which is one of 3, 4, 6, 7; the unexpected EOF of a fixed-width field;
    and the missing bytes of a length-delimited field, with a declared
    length that is a [uint64] and a number of bytes found between 0 and the
    length of the buffer.  The two errors of the frame are not among them.
    The error comes from an iteration of the loop on the buffer itself, in
    a state that the loop reached, and that iteration returns it whatever
    the recursive decoder does: an error met inside a nested payload is
    never the error of the decode. *)
Theorem ParseProto_error_kinds :
  forall (fuel : nat) (data : list byte) (e : error),
    ParseProto fuel data = Err e ->
    ((exists t, e = InvalidFieldType t /\ In t [3; 4; 6; 7])
     \/ e = UnexpectedEOF
     \/ (exists x found,
            e = NotEnoughBytes x found
            /\ 0 <= x < two64 /\ 0 <= found <= len data))
    /\ exists pos msg,
        reached data pos msg /\ 0 <= pos < len data
        /\ forall sub : list byte -> outcome (Message * Z),
            loop_body sub data pos msg = Err e.
Proof.
  intros fuel data e H. unfold ParseProto in H.
  pose proof (len_nonneg data) as L.
  split.
  - eapply ParseProto_loop_Err; [| exact H]. lia.
  - eapply ParseProto_loop_Err_origin; [| | exact H].
    + lia.
    + apply reached_start.
Qed.

Lemma ParseProto_error_kinds_witness :
  ((exists t, InvalidFieldType 3 = InvalidFieldType t /\ In t [3; 4; 6; 7])
   \/ InvalidFieldType 3 = UnexpectedEOF
   \/ (exists x found,
          InvalidFieldType 3 = NotEnoughBytes x found
          /\ 0 <= x < two64 /\ 0 <= found <= len [x08; x01; x0b]))
  /\ exists pos msg,
      reached [x08; x01; x0b] pos msg /\ 0 <= pos < len [x08; x01; x0b]
      /\ forall sub : list byte -> outcome (Message * Z),
          loop_body sub [x08; x01; x0b] pos msg = Err (InvalidFieldType 3).
Proof.
  apply (ParseProto_error_kinds 2 [x08; x01; x0b] (InvalidFieldType 3)).
  reflexivity.
Defined.
